(** * nitro-snake: the simulation core of [src/App.tsx]

    A shallow embedding of the tick-driven snake engine: the body array
    [snakeCoordinates], the derived key set [snakeCoordinatesMap], the
    direction controller, random food placement and the lifecycle
    operations, followed by the properties of the specification.

    Modelling conventions.
    - JavaScript numbers that hold grid coordinates and the score are [Z].
    - The template string [`${row}:${col}`] is the decimal rendering of both
      integers around a colon; [pretty] on [Z] is that rendering.
    - [Set<string>] is [gset string]; the body array is a [list Coordinate]
      ordered from tail (index 0) to head (last index).
    - React state ([points], [gameOver], [isPlaying]) is updated at once.
      A function of the component reads the state its render saw: a click
      handler belongs to the latest render and reads the current value, an
      interval callback belongs to the render that started the interval
      (see [moveSnakeSeen] and [intervalTick]). Audio is left out.
    - [Math.random()] is a draw from a sequence [random : nat -> unit01];
      the state counts the draws consumed so far.
    - [populateFoodBall] recurses without a bound in the source, so it takes
      fuel here and returns [None] when the fuel runs out. *)

From Stdlib Require Import ZArith QArith Qround Lia Ascii String.
From stdpp Require Import base decidable option list gmap sets strings pretty.

Local Open Scope Z_scope.

(** ** Constants and data *)

Definition COLS : Z := 48.
Definition ROWS : Z := 48.
Definition DEFAULT_LENGTH : nat := 10.

Inductive Direction : Set := UP | DOWN | RIGHT | LEFT.

#[global] Instance Direction_eq_dec : EqDecision Direction.
Proof. solve_decision. Defined.

(** [isHead] is optional in the interface: the food cell carries none. *)
Record Coordinate : Set := mkCoordinate {
  row : Z;
  col : Z;
  isHead : option bool
}.

#[global] Instance Coordinate_eq_dec : EqDecision Coordinate.
Proof. solve_decision. Defined.

(** The grid cell a coordinate object denotes. *)
Definition cellOf (c : Coordinate) : Z * Z := (row c, col c).

(** [`${row}:${col}`] *)
Definition coordsKey (r c : Z) : string := pretty r +:+ ":" +:+ pretty c.

Definition keyOf (c : Coordinate) : string := coordsKey (row c) (col c).

Definition inBounds (c : Coordinate) : Prop :=
  0 <= row c < ROWS /\ 0 <= col c < COLS.

#[global] Instance inBounds_dec (c : Coordinate) : Decision (inBounds c).
Proof. unfold inBounds. apply _. Defined.

(** ** The random source *)

(** A value of [Math.random()]: a number [u] with [0 <= u < 1]. *)
Record unit01 : Set := mkUnit01 {
  u_val : Q;
  u_ok : Qle_bool 0 u_val && negb (Qle_bool 1 u_val) = true
}.

(** [Math.floor(u * n)] *)
Definition floorScale (u : unit01) (n : Z) : Z :=
  Qfloor (u_val u * inject_Z n).

(** ** Session state *)

Record State : Type := mkState {
  timer : option positive;
  snakeCoordinates : list Coordinate;
  direction : Direction;
  snakeCoordinatesMap : gset string;
  foodCoords : Coordinate;
  points : Z;
  gameOver : bool;
  isPlaying : Z;
  draws : nat
}.

Definition set_timer (t : option positive) (s : State) : State :=
  mkState t (snakeCoordinates s) (direction s) (snakeCoordinatesMap s)
          (foodCoords s) (points s) (gameOver s) (isPlaying s) (draws s).
Definition set_snakeCoordinates (l : list Coordinate) (s : State) : State :=
  mkState (timer s) l (direction s) (snakeCoordinatesMap s)
          (foodCoords s) (points s) (gameOver s) (isPlaying s) (draws s).
Definition set_direction (d : Direction) (s : State) : State :=
  mkState (timer s) (snakeCoordinates s) d (snakeCoordinatesMap s)
          (foodCoords s) (points s) (gameOver s) (isPlaying s) (draws s).
Definition set_snakeCoordinatesMap (m : gset string) (s : State) : State :=
  mkState (timer s) (snakeCoordinates s) (direction s) m
          (foodCoords s) (points s) (gameOver s) (isPlaying s) (draws s).
Definition set_foodCoords (f : Coordinate) (s : State) : State :=
  mkState (timer s) (snakeCoordinates s) (direction s) (snakeCoordinatesMap s)
          f (points s) (gameOver s) (isPlaying s) (draws s).
Definition set_points (p : Z) (s : State) : State :=
  mkState (timer s) (snakeCoordinates s) (direction s) (snakeCoordinatesMap s)
          (foodCoords s) p (gameOver s) (isPlaying s) (draws s).
Definition set_gameOver (b : bool) (s : State) : State :=
  mkState (timer s) (snakeCoordinates s) (direction s) (snakeCoordinatesMap s)
          (foodCoords s) (points s) b (isPlaying s) (draws s).
Definition set_isPlaying (n : Z) (s : State) : State :=
  mkState (timer s) (snakeCoordinates s) (direction s) (snakeCoordinatesMap s)
          (foodCoords s) (points s) (gameOver s) n (draws s).
Definition set_draws (n : nat) (s : State) : State :=
  mkState (timer s) (snakeCoordinates s) (direction s) (snakeCoordinatesMap s)
          (foodCoords s) (points s) (gameOver s) (isPlaying s) n.

(** The state of the refs and hooks when the component is first rendered. *)
Definition mount : State :=
  mkState None [] RIGHT ∅ (mkCoordinate (-1) (-1) None) 0 false 0 0%nat.

(** The lifecycle phase of the specification, read off the session state:
    the game-over flag, else whether an interval is scheduled. *)
Inductive Phase : Set := Idle | Running | GameOver.

Definition phase (s : State) : Phase :=
  if gameOver s then GameOver
  else match timer s with Some _ => Running | None => Idle end.

(** ** Direction controller *)

Definition getNewDirection (key : string) (s : State) : Direction :=
  if decide (key = "ArrowUp") then UP
  else if decide (key = "ArrowDown") then DOWN
  else if decide (key = "ArrowRight") then RIGHT
  else if decide (key = "ArrowLeft") then LEFT
  else direction s.

Definition handleDirectionChange (key : string) (s : State) : State :=
  let newDirection := getNewDirection key s in
  if (bool_decide (direction s = UP) && bool_decide (newDirection = DOWN))
     || (bool_decide (direction s = DOWN) && bool_decide (newDirection = UP))
     || (bool_decide (direction s = LEFT) && bool_decide (newDirection = RIGHT))
     || (bool_decide (direction s = RIGHT) && bool_decide (newDirection = LEFT))
  then s
  else set_direction newDirection s.

(** ** Occupied-set maintenance *)

Definition keysOf (l : list Coordinate) : gset string :=
  list_to_set (keyOf <$> l).

Definition syncSnakeCoordinatesMap (s : State) : State :=
  let snakeCoordsSet := keysOf (snakeCoordinates s) in
  set_snakeCoordinatesMap snakeCoordsSet s.

(** ** Collision check *)

Definition collisionCheck (s : State) (snakeHead : Coordinate) : bool :=
  if (COLS <=? col snakeHead) || (ROWS <=? row snakeHead)
     || (col snakeHead <? 0) || (row snakeHead <? 0)
  then true
  else
    let coordsKey := keyOf snakeHead in
    if bool_decide (coordsKey ∈ snakeCoordinatesMap s) then true
    else false.

(** ** Lifecycle: stop *)

Definition stopGame (s : State) : State :=
  set_timer None (set_isPlaying 0 (set_gameOver true s)).

(** ** Movement helpers *)

(** [{ ...snakeHead }] followed by [isHead = false]. *)
Definition headCopy (snakeHead : Coordinate) : Coordinate :=
  mkCoordinate (row snakeHead) (col snakeHead) (Some false).

(** One callback of [coords.forEach((_, idx) => ...)], run on the live
    array: the last slot receives a copy of the head marked non-head, any
    other slot receives the element after it. *)
Definition shiftCell (snakeHead : Coordinate) (coords : list Coordinate)
    (idx : nat) : list Coordinate :=
  if decide (idx = (length coords - 1)%nat) then
    <[idx := headCopy snakeHead]> coords
  else
    match coords !! (idx + 1)%nat with
    | Some next => <[idx := next]> coords
    | None => coords (* not taken: [idx + 1] is below the length here *)
    end.

Definition shiftBody (snakeHead : Coordinate) (coords : list Coordinate)
    : list Coordinate :=
  foldl (shiftCell snakeHead) coords (seq 0 (length coords)).

(** The [switch] on the direction: the head object moves one unit. *)
Definition stepHead (d : Direction) (snakeHead : Coordinate) : Coordinate :=
  match d with
  | UP => mkCoordinate (row snakeHead - 1) (col snakeHead) (isHead snakeHead)
  | DOWN => mkCoordinate (row snakeHead + 1) (col snakeHead) (isHead snakeHead)
  | RIGHT => mkCoordinate (row snakeHead) (col snakeHead + 1) (isHead snakeHead)
  | LEFT => mkCoordinate (row snakeHead) (col snakeHead - 1) (isHead snakeHead)
  end.

(** The default straight-line body: row 0, columns 0 to 9, head last. *)
Definition snakePositions : list Coordinate :=
  alter (λ c, mkCoordinate (row c) (col c) (Some true))
        (DEFAULT_LENGTH - 1)%nat
        ((λ i, mkCoordinate 0 (Z.of_nat i) (Some false))
           <$> seq 0 DEFAULT_LENGTH).

Section Session.

(** The sequence of values [Math.random()] returns, in call order. *)
Variable random : nat → unit01.

(** ** Food placement *)

Fixpoint populateFoodBall (fuel : nat) (s : State) : option State :=
  match fuel with
  | O => None
  | S fuel' =>
      let row := floorScale (random (draws s)) ROWS in
      let col := floorScale (random (S (draws s))) COLS in
      let s := set_draws (S (S (draws s))) s in
      let coordsKey := coordsKey row col in
      if bool_decide (coordsKey ∈ snakeCoordinatesMap s) then
        populateFoodBall fuel' s
      else
        Some (set_foodCoords (mkCoordinate row col None) s)
  end.

(** ** The tick *)

(** [moveSnake] after its guard (lines 110 to 173). [coords] aliases the
    array behind [snakeCoordinates], so [pop] and the shift are visible
    through the ref when the function returns early. [snakeTail] and
    [snakeHead] are one object when the array has a single element, and
    also when [sameObject] says that the first and the last slot of a longer
    array hold one object: the step then moves [snakeTail] too. *)
Definition moveSnakeBody (sameObject : bool) (fuel : nat) (s : State)
    : option State :=
  let s := set_isPlaying (isPlaying s + 1) s in
  let coords := snakeCoordinates s in
  match coords !! 0%nat, last coords with
  | Some snakeTail, Some snakeHead =>
      let coords := removelast coords in
      let currentDirection := direction s in
      let foodConsumed :=
        (row snakeHead =? row (foodCoords s))
        && (col snakeHead =? col (foodCoords s)) in
      let coords := shiftBody snakeHead coords in
      let s := set_snakeCoordinates coords s in
      let snakeHead := stepHead currentDirection snakeHead in
      let snakeTail :=
        if sameObject then snakeHead
        else match coords with [] => snakeHead | _ => snakeTail end in
      s ← (if foodConsumed
           then populateFoodBall fuel (set_points (points s + 10) s)
           else Some s);
      let collided := collisionCheck s snakeHead in
      if collided then Some (stopGame s)
      else
        let coords := coords ++ [snakeHead] in
        Some (syncSnakeCoordinatesMap
                (set_snakeCoordinates
                   (if foodConsumed then snakeTail :: coords else coords)
                   s))
  | _, _ => Some s
  end.

(** [moveSnake] as the closure of a render in which the state [gameOver]
    had the value [gameOverSeen], on an array whose slots hold pairwise
    distinct objects, as the array of a session that is not over does (see
    [sound]). *)
Definition moveSnakeSeen (gameOverSeen : bool) (fuel : nat) (s : State)
    : option State :=
  if gameOverSeen then Some s else moveSnakeBody false fuel s.

(** [moveSnake] of the latest render, which saw the current [gameOver]. *)
Definition moveSnake (fuel : nat) (s : State) : option State :=
  moveSnakeSeen (gameOver s) fuel s.

(** ** Lifecycle: reset, start, and the effect run at mount *)

Definition resetGame (fuel : nat) (s : State) : option State :=
  let s := set_snakeCoordinates snakePositions s in
  let s := set_direction RIGHT s in
  let s := set_gameOver false s in
  let s := set_points 0 s in
  populateFoodBall fuel (syncSnakeCoordinatesMap s).

(** [interval] is the handle [setInterval] returns. *)
Definition startGame (fuel : nat) (interval : positive) (s : State)
    : option State :=
  s ← (if gameOver s then resetGame fuel s else Some s);
  Some (set_timer (Some interval) s).

Definition initEffect (fuel : nat) (s : State) : option State :=
  let s := set_snakeCoordinates snakePositions s in
  populateFoodBall fuel (syncSnakeCoordinatesMap s).

(** ** The interval callback *)

(** A session together with the sharing inside its array: [tailIsHead]
    holds when the array has more than one slot and its first and last slot
    hold one object, which is what growth leaves when [snakeTail] and
    [snakeHead] were one object. *)
Record Page : Type := mkPage {
  refs : State;
  tailIsHead : bool
}.

(** The callback [startGame] hands to [setInterval] calls the [moveSnake]
    of the render [startGame] belongs to. The START button is rendered only
    while [gameOver] is [false], so that [moveSnake] saw [gameOver = false]
    and goes on seeing it at every later firing, whatever the session has
    become: the guard of line 108 never fires in an interval callback.
    Afterwards the first and the last slot hold one object when the array
    has grown from one in which [snakeTail] and [snakeHead] were one
    object. *)
Definition intervalTick (fuel : nat) (p : Page) : option Page :=
  let s := refs p in
  let sameObject :=
    tailIsHead p || bool_decide (length (snakeCoordinates s) = 1%nat) in
  s' ← moveSnakeBody (tailIsHead p) fuel s;
  let grown :=
    bool_decide (length (snakeCoordinates s')
                 = S (length (snakeCoordinates s))) in
  Some (mkPage s' (grown && sameObject)).

(** ** Public operations and reachable states *)

Inductive Op : Set :=
| OpReset
| OpStart (interval : positive)
| OpSetDirection (key : string)
| OpTick
| OpStop.

(** [resetGame] builds an array of new objects. *)
Definition run (fuel : nat) (op : Op) (p : Page) : option Page :=
  let s := refs p in
  match op with
  | OpReset =>
      s' ← resetGame fuel s; Some (mkPage s' false)
  | OpStart interval =>
      s' ← startGame fuel interval s;
      Some (mkPage s' (if gameOver s then false else tailIsHead p))
  | OpSetDirection key =>
      Some (mkPage (handleDirectionChange key s) (tailIsHead p))
  | OpTick => intervalTick fuel p
  | OpStop => Some (mkPage (stopGame s) (tailIsHead p))
  end.

(** The pages reachable from mount. A tick may come at any time: [stopGame]
    clears only the interval whose handle is in [timer], and [startGame]
    overwrites the handle of an interval that is still live, so an interval
    can be live in every phase. *)
Inductive reachablePage : Page → Prop :=
| reachable_init fuel s :
    initEffect fuel mount = Some s → reachablePage (mkPage s false)
| reachable_step fuel op p p' :
    reachablePage p → run fuel op p = Some p' → reachablePage p'.

Definition reachable (s : State) : Prop :=
  ∃ p, reachablePage p ∧ refs p = s.

(** ** Events of the page *)

(** The page in the browser: [live] holds the handles of the intervals that
    were set and not cleared. *)
Record Browser : Type := mkBrowser {
  page : Page;
  live : gset positive
}.

(** A click on the START/STOP button (with the handle [setInterval] returns
    if the click starts the game), a click on PLAY AGAIN, a key press or a
    click on a direction button, and the firing of an interval. *)
Inductive Event : Set :=
| ClickMain (interval : positive)
| ClickPlayAgain
| PressKey (key : string)
| Fire (interval : positive).

(** The live intervals after a call that may have gone through [stopGame]:
    [clearInterval(timer.current)] when the handle was set. *)
Definition clearedBy (before after : State) (live : gset positive)
    : gset positive :=
  match timer before, timer after with
  | Some interval, None => live ∖ {[interval]}
  | _, _ => live
  end.

(** What an event does, [None] when the page does not offer it: the main
    button is rendered while [gameOver] is [false] and calls [stopGame] or
    [startGame] as [isPlaying] is non-zero or zero, PLAY AGAIN is rendered
    while [gameOver] is [true], [setInterval] returns a handle that is not
    in use, and only a live interval fires. *)
Definition handle (fuel : nat) (event : Event) (b : Browser)
    : option Browser :=
  let p := page b in
  let s := refs p in
  match event with
  | ClickMain interval =>
      if gameOver s then None
      else if bool_decide (isPlaying s = 0) then
        if bool_decide (interval ∈ live b) then None
        else
          p' ← run fuel (OpStart interval) p;
          Some (mkBrowser p' ({[interval]} ∪ live b))
      else
        p' ← run fuel OpStop p;
        Some (mkBrowser p' (clearedBy s (refs p') (live b)))
  | ClickPlayAgain =>
      if gameOver s then
        p' ← run fuel OpReset p; Some (mkBrowser p' (live b))
      else None
  | PressKey key =>
      p' ← run fuel (OpSetDirection key) p; Some (mkBrowser p' (live b))
  | Fire interval =>
      if bool_decide (interval ∈ live b) then
        p' ← run fuel OpTick p;
        Some (mkBrowser p' (clearedBy s (refs p') (live b)))
      else None
  end.

(** A session of the page from mount. *)
Definition browse (fuel : nat) (events : list Event) : option Browser :=
  s ← initEffect fuel mount;
  foldl (λ acc event, acc ≫= handle fuel event)
        (Some (mkBrowser (mkPage s false) ∅)) events.

End Session.

(** ** Notions used by the properties *)

(** The cell an attempt of [populateFoodBall] draws when it starts at draw
    [n]: the row from draw [n], the column from draw [n + 1]. *)
Definition sampleAt (random : nat → unit01) (n : nat) : Coordinate :=
  mkCoordinate (floorScale (random n) ROWS)
               (floorScale (random (S n)) COLS) None.

(** Attempt number [k] from the current state lands on a free cell. *)
Definition attemptFree (random : nat → unit01) (s : State) (k : nat) : Prop :=
  keyOf (sampleAt random (draws s + 2 * k)) ∉ snakeCoordinatesMap s.

(** The state [populateFoodBall] returns when attempt [k] is the one that
    succeeds: two draws consumed per attempt, the food on the drawn cell. *)
Definition placedAt (random : nat → unit01) (s : State) (k : nat) : State :=
  set_foodCoords (sampleAt random (draws s + 2 * k))
                 (set_draws (draws s + 2 * k + 2) s).

(** Some attempt within the fuel lands on a free cell. *)
Definition placeable (random : nat → unit01) (fuel : nat) (s : State) : Prop :=
  ∃ k, (k < fuel)%nat ∧ attemptFree random s k.


(** The occupied-set holds exactly the keys of the body. *)
Definition synced (s : State) : Prop :=
  snakeCoordinatesMap s = keysOf (snakeCoordinates s).

(** What a colliding tick leaves behind: the game is over and the
    occupied-set still holds the key of the tail cell the array dropped. *)
Definition collisionAftermath (s : State) : Prop :=
  gameOver s = true ∧
  ∃ tail, (keyOf tail ∉ keysOf (snakeCoordinates s)) ∧
          snakeCoordinatesMap s = {[keyOf tail]} ∪ keysOf (snakeCoordinates s).

(** A string without a colon, as the rendering of an integer is. *)
Fixpoint colonFree (s : string) : Prop :=
  match s with
  | EmptyString => True
  | String a s' => a ≠ ":"%char ∧ colonFree s'
  end.

(** The pre-step head lies on the food cell. *)
Definition onFood (s : State) (snakeHead : Coordinate) : bool :=
  (row snakeHead =? row (foodCoords s)) && (col snakeHead =? col (foodCoords s)).

(** The session once [moveSnake] has popped the head [h] off a body
    [tail :: mid ++ [h]] and shifted the array in place. *)
Definition afterShift (s : State) (mid : list Coordinate) (h : Coordinate)
    : State :=
  set_snakeCoordinates (mid ++ [headCopy h])
                       (set_isPlaying (isPlaying s + 1) s).

(** A session as one interval leaves it: distinct keys, cells in bounds, at
    least two cells while the game is not over, and an occupied-set that is
    exact or one tail key ahead of the array. *)
Definition wellFormed (s : State) : Prop :=
  NoDup (keyOf <$> snakeCoordinates s) ∧
  Forall inBounds (snakeCoordinates s) ∧
  (gameOver s = false → (2 ≤ length (snakeCoordinates s))%nat) ∧
  (synced s ∨ collisionAftermath s).

(** The key the arrow button of a direction passes to
    [handleDirectionChange]. *)
Definition arrowKey (d : Direction) : string :=
  match d with
  | UP => "ArrowUp"
  | DOWN => "ArrowDown"
  | RIGHT => "ArrowRight"
  | LEFT => "ArrowLeft"
  end.

(** Exact opposites: UP against DOWN, LEFT against RIGHT. *)
Definition opposite (d r : Direction) : bool :=
  match d, r with
  | UP, DOWN | DOWN, UP | LEFT, RIGHT | RIGHT, LEFT => true
  | _, _ => false
  end.

(** A sequence of public operations, and a whole session from mount. *)
Definition runOps (random : nat → unit01) (fuel : nat) (ops : list Op)
    (p : Page) : option Page :=
  foldl (λ acc op, acc ≫= run random fuel op) (Some p) ops.

Definition session (random : nat → unit01) (fuel : nat) (ops : list Op)
    : option State :=
  s ← initEffect random fuel mount;
  refs <$> runOps random fuel ops (mkPage s false).

(** The invariant carried along reachable pages: the occupied-set holds the
    keys of the array, the cells of the array are in bounds, and while the
    game is not over the session is well formed, the set is exact and no
    object sits in two slots. *)
Definition sound (p : Page) : Prop :=
  keysOf (snakeCoordinates (refs p)) ⊆ snakeCoordinatesMap (refs p) ∧
  Forall inBounds (snakeCoordinates (refs p)) ∧
  (gameOver (refs p) = false →
   wellFormed (refs p) ∧ synced (refs p) ∧ tailIsHead p = false).

(** Projections and setters, unfolded together. *)
Ltac fields :=
  cbn [timer snakeCoordinates direction snakeCoordinatesMap foodCoords points
       gameOver isPlaying draws set_timer set_snakeCoordinates set_direction
       set_snakeCoordinatesMap set_foodCoords set_points set_gameOver
       set_isPlaying set_draws stopGame syncSnakeCoordinatesMap placedAt
       afterShift] in *.

(** ** Concrete sessions *)

Definition half : unit01 := mkUnit01 (1 # 2) eq_refl.

(** A random source that returns the listed draws, then one half. *)
Definition drawsOf (l : list unit01) : nat → unit01 :=
  λ n, default half (l !! n).

Definition segment (r c : Z) : Coordinate := mkCoordinate r c (Some false).
Definition headAt (r c : Z) : Coordinate := mkCoordinate r c (Some true).
Definition foodAt (r c : Z) : Coordinate := mkCoordinate r c None.

(** Every food draw lands on the centre cell (24, 24). *)
Definition centreDraws : nat → unit01 := drawsOf [].

(** The session right after mount: idle, default body, food at the centre. *)
Definition idleSession : State :=
  mkState None snakePositions RIGHT (keysOf snakePositions)
          (foodAt 24 24) 0 false 0 2%nat.

(** Started, then turned down, left and up around a 2 x 5 block: the head
    at (1, 5) faces the tail cell (0, 5). *)
Definition loopOps : list Op :=
  [OpStart 1; OpSetDirection "ArrowDown"; OpTick;
   OpSetDirection "ArrowLeft"; OpTick; OpTick; OpTick; OpTick;
   OpSetDirection "ArrowUp"].

Definition loopBody : list Coordinate :=
  [segment 0 5; segment 0 6; segment 0 7; segment 0 8; segment 0 9;
   segment 1 9; segment 1 8; segment 1 7; segment 1 6; headAt 1 5].

Definition loopSession : State :=
  mkState (Some 1%positive) loopBody UP (keysOf loopBody)
          (foodAt 24 24) 0 false 5 2%nat.

(** Started and turned up at once: the head at (0, 9) faces the top wall. *)
Definition wallOps : list Op := [OpStart 1; OpSetDirection "ArrowUp"].

Definition wallSession : State :=
  mkState (Some 1%positive) snakePositions UP (keysOf snakePositions)
          (foodAt 24 24) 0 false 0 2%nat.

(** The session one tick later: game over, the array one cell short. *)
Definition wallOver : State :=
  mkState None
          [segment 0 1; segment 0 2; segment 0 3; segment 0 4; segment 0 5;
           segment 0 6; segment 0 7; segment 0 8; segment 0 9]
          UP (keysOf snakePositions) (foodAt 24 24) 0 true 0 2%nat.

(** The first placement draws (0, 10), the second (0, 11). *)
Definition growDraws : nat → unit01 :=
  drawsOf [mkUnit01 0 eq_refl; mkUnit01 (10 # 48) eq_refl;
           mkUnit01 0 eq_refl; mkUnit01 (11 # 48) eq_refl].

(** Started with the food at (0, 10), right ahead of the head. *)
Definition aheadSession : State :=
  mkState (Some 1%positive) snakePositions RIGHT (keysOf snakePositions)
          (foodAt 0 10) 0 false 0 2%nat.

Definition onFoodBody : list Coordinate :=
  [segment 0 1; segment 0 2; segment 0 3; segment 0 4; segment 0 5;
   segment 0 6; segment 0 7; segment 0 8; segment 0 9; headAt 0 10].

(** One tick later the head stands on the food. *)
Definition onFoodSession : State :=
  mkState (Some 1%positive) onFoodBody RIGHT (keysOf onFoodBody)
          (foodAt 0 10) 0 false 1 2%nat.

Definition grownBody : list Coordinate :=
  [segment 0 1; segment 0 2; segment 0 3; segment 0 4; segment 0 5;
   segment 0 6; segment 0 7; segment 0 8; segment 0 9; segment 0 10;
   headAt 0 11].

(** One more tick: grown to eleven cells, the new food under the head. *)
Definition grownSession : State :=
  mkState (Some 1%positive) grownBody RIGHT (keysOf grownBody)
          (foodAt 0 11) 10 false 2 4%nat.

(** The first placement draws (0, 47), in the path of the head. *)
Definition cornerDraws : nat → unit01 :=
  drawsOf [mkUnit01 0 eq_refl; mkUnit01 (47 # 48) eq_refl].

Definition cornerBody : list Coordinate :=
  [segment 0 38; segment 0 39; segment 0 40; segment 0 41; segment 0 42;
   segment 0 43; segment 0 44; segment 0 45; segment 0 46; headAt 0 47].

(** After 38 ticks to the right the head stands on the food at the wall. *)
Definition cornerSession : State :=
  mkState (Some 1%positive) cornerBody RIGHT (keysOf cornerBody)
          (foodAt 0 47) 0 false 38 2%nat.

(** The draw [q] when it lies in [0, 1), one half otherwise. *)
Definition clampUnit (q : Q) : unit01 :=
  match Sumbool.sumbool_of_bool (Qle_bool 0 q && negb (Qle_bool 1 q)) with
  | left ok => mkUnit01 q ok
  | right _ => half
  end.

(** A source that sweeps the grid row by row: attempt [j] draws the cell
    in row [(j / 48) mod 48] and column [j mod 48]. *)
Definition gridDraws : nat → unit01 :=
  λ n, let j := (n / 2)%nat in
       clampUnit
         (Z.of_nat ((if Nat.even n then (j / 48)%nat else j) mod 48) # 48).

(** The session at the moment the mount effect places the first food. *)
Definition freshSession : State :=
  syncSnakeCoordinatesMap (set_snakeCoordinates snakePositions mount).




(** The first placement draws (0, 11). *)
Definition leakDraws : nat → unit01 :=
  drawsOf [mkUnit01 0 eq_refl; mkUnit01 (11 # 48) eq_refl].

(** START twice, then up: the first firing of interval 1 hits the top wall
    and [stopGame] clears interval 2. Interval 1 fires on: eight more
    collisions shorten the array to the one cell (0, 9); turned right, that
    cell walks to (0, 10) and onto the food at (0, 11), and the next firing
    eats it. *)
Definition leakEvents : list Event :=
  [ClickMain 1; ClickMain 2; PressKey "ArrowUp"]
    ++ replicate 9 (Fire 1)
    ++ [PressKey "ArrowRight"]
    ++ replicate 3 (Fire 1).

(** The session these events leave: over, with one object in both slots of
    the array. *)
Definition doubledSession : State :=
  mkState None [segment 0 12; segment 0 12] RIGHT (keysOf [segment 0 12])
          (foodAt 24 24) 10 true 3 4%nat.

(** ** Rendering *)

(** The board the component renders from: [ROWS] rows that are one shared
    array of [COLS] empty strings; only the indices are read. *)
Definition grid : list (list string) :=
  replicate (Z.to_nat ROWS) (replicate (Z.to_nat COLS) "").

(** The class name [getCell] gives the [div] of a board cell: [cell], then
    [food], [body] and [head] as the cell is the food cell, a member of the
    occupied-set, and the cell of the last element of the array. *)
Definition getCell (s : State) (rowIdx colIdx : Z) : string :=
  let coords := coordsKey rowIdx colIdx in
  let foodPos := keyOf (foodCoords s) in
  let head := last (snakeCoordinates s) in
  let headPos := match head with Some head => keyOf head | None => "" end in
  let isFood := bool_decide (coords = foodPos) in
  let isSnakeBody := bool_decide (coords ∈ snakeCoordinatesMap s) in
  let isHead := bool_decide (headPos = coords) in
  let className := "cell" in
  let className := if isFood then className +:+ " food" else className in
  let className := if isSnakeBody then className +:+ " body" else className in
  let className := if isHead then className +:+ " head" else className in
  className.

(** The rows of [div]s of the board, as class names. *)
Definition board (s : State) : list (list string) :=
  imap (λ rowIdx row,
          imap (λ colIdx _, getCell s (Z.of_nat rowIdx) (Z.of_nat colIdx)) row)
       grid.

(** The class name for given marks. *)
Definition classes (isFood isSnakeBody isHead : bool) : string :=
  ((("cell" +:+ (if isFood then " food" else ""))
      +:+ (if isSnakeBody then " body" else ""))
     +:+ (if isHead then " head" else "")).

(** [needle] occurs at the start of, and somewhere in, a string. *)
Fixpoint startsWith (needle hay : string) : bool :=
  match needle, hay with
  | EmptyString, _ => true
  | String a needle', String b hay' =>
      bool_decide (a = b) && startsWith needle' hay'
  | String _ _, EmptyString => false
  end.

Fixpoint includes (needle hay : string) : bool :=
  startsWith needle hay
  || match hay with
     | EmptyString => false
     | String _ hay' => includes needle hay'
     end.

(** How many cells of the board carry a class. *)
Definition countClass (cls : string) (s : State) : nat :=
  length (filter (λ className, includes cls className = true)
                 (concat (board s))).

(** ** Further notions *)

(** The opposite of a direction. *)
Definition oppositeOf (d : Direction) : Direction :=
  match d with UP => DOWN | DOWN => UP | LEFT => RIGHT | RIGHT => LEFT end.

(** Two cells one orthogonal step apart. *)
Definition adjacent (a b : Coordinate) : Prop :=
  Z.abs (row a - row b) + Z.abs (col a - col b) = 1.

(** Every element of a body is next to the one after it. *)
Fixpoint connected (l : list Coordinate) : Prop :=
  match l with
  | a :: (b :: _) as l' => adjacent a b ∧ connected l'
  | _ => True
  end.

(** The free steps ahead of a head before the wall, in a direction. *)
Definition room (d : Direction) (h : Coordinate) : Z :=
  match d with
  | UP => row h
  | DOWN => ROWS - 1 - row h
  | RIGHT => COLS - 1 - col h
  | LEFT => col h
  end.

(** [n] ticks in a row, with no key pressed in between. *)
Fixpoint ticks (random : nat → unit01) (fuel : nat) (n : nat) (s : State)
    : option State :=
  match n with
  | O => Some s
  | S n' => moveSnake random fuel s ≫= ticks random fuel n'
  end.

(** All cells of the grid, row by row. *)
Definition gridCells : list (Z * Z) :=
  r ← seq 0 (Z.to_nat ROWS);
  (λ c, (Z.of_nat r, Z.of_nat c)) <$> seq 0 (Z.to_nat COLS).

(** A session whose occupied-set covers the whole grid. *)
Definition fullGridSession : State :=
  set_snakeCoordinatesMap
    (list_to_set ((λ rc, coordsKey rc.1 rc.2) <$> gridCells)) mount.

(** * Properties *)

(** ** The random source stays in range *)

Lemma floorScale_range (u : unit01) (n : Z) :
  0 < n → 0 <= floorScale u n < n.
Proof.
  intros Hn. destruct u as [[a b] Hok]. unfold floorScale; simpl.
  apply andb_prop in Hok as [Hlo Hhi].
  apply negb_true_iff in Hhi.
  unfold Qle_bool in Hlo, Hhi; simpl in Hlo, Hhi.
  apply Z.leb_le in Hlo. apply Z.leb_gt in Hhi.
  rewrite Pos.mul_1_r.
  split.
  - apply Z.div_pos; lia.
  - apply Z.div_lt_upper_bound; nia.
Qed.

Lemma sampleAt_inBounds random n : inBounds (sampleAt random n).
Proof.
  split; simpl; apply floorScale_range; reflexivity.
Qed.

(** ** Keys: the rendering of a cell determines the cell *)

Lemma pretty_N_char_no_colon x : pretty_N_char x ≠ ":"%char.
Proof. unfold pretty_N_char. repeat case_match; discriminate. Qed.

Lemma pretty_N_go_colonFree x s : colonFree s → colonFree (pretty_N_go x s).
Proof.
  revert s. induction (N.lt_wf_0 x) as [x _ IH]; intros s Hs.
  destruct (decide (x = 0)%N) as [->|Hx].
  - by rewrite pretty_N_go_0.
  - rewrite pretty_N_go_step by lia.
    apply IH.
    + apply N.div_lt; lia.
    + split; [apply pretty_N_char_no_colon | done].
Qed.

Lemma pretty_N_colonFree (x : N) : colonFree (pretty x).
Proof.
  unfold pretty, pretty_N. case_decide.
  - simpl. split; [discriminate | done].
  - by apply pretty_N_go_colonFree.
Qed.

Lemma pretty_Z_colonFree (z : Z) : colonFree (pretty z).
Proof.
  destruct z as [|p|p]; unfold pretty, pretty_Z.
  - simpl. split; [discriminate | done].
  - apply pretty_N_colonFree.
  - simpl. split; [discriminate | apply pretty_N_colonFree].
Qed.

Lemma colon_split a b x y :
  colonFree a → colonFree b →
  a +:+ ":" +:+ x = b +:+ ":" +:+ y → a = b ∧ x = y.
Proof.
  revert b. induction a as [|c a IH]; intros [|d b] Ha Hb Heq; simpl in *.
  - by simplify_eq.
  - simplify_eq. by destruct Hb.
  - simplify_eq. by destruct Ha.
  - destruct Ha as [_ Ha], Hb as [_ Hb]. simplify_eq.
    destruct (IH b Ha Hb) as [-> ->]; done.
Qed.

Lemma coordsKey_inj r1 c1 r2 c2 :
  coordsKey r1 c1 = coordsKey r2 c2 → r1 = r2 ∧ c1 = c2.
Proof.
  unfold coordsKey. intros Heq.
  apply colon_split in Heq as [Hr Hc]; try apply pretty_Z_colonFree.
  split; by apply (inj pretty).
Qed.

Lemma keyOf_cellOf c1 c2 : keyOf c1 = keyOf c2 ↔ cellOf c1 = cellOf c2.
Proof.
  unfold keyOf, cellOf. split.
  - intros H. apply coordsKey_inj in H as [-> ->]. done.
  - intros [= H1 H2]. by rewrite H1, H2.
Qed.

(** ** The shift of the body array *)

Lemma shiftBody_prefix h (l : list Coordinate) k :
  (k < length l)%nat →
  length (foldl (shiftCell h) l (seq 0 k)) = length l ∧
  ∀ i, foldl (shiftCell h) l (seq 0 k) !! i
       = if decide (i < k)%nat then l !! S i else l !! i.
Proof.
  induction k as [|k IH]; intros Hk.
  - split; [done|]. intros i. destruct (decide (i < 0)%nat); [lia | done].
  - destruct IH as [Hlen Hlook]; [lia|].
    rewrite seq_S, foldl_app. simpl.
    set (acc := foldl (shiftCell h) l (seq 0 k)) in *.
    unfold shiftCell. rewrite decide_False by lia.
    assert (is_Some (l !! S k)) as [x Hx] by (apply lookup_lt_is_Some; lia).
    replace (k + 1)%nat with (S k) by lia.
    rewrite Hlook. rewrite decide_False by lia. rewrite Hx.
    split; [by rewrite length_insert|].
    intros i. destruct (decide (i = k)) as [->|Hne].
    + rewrite list_lookup_insert_eq by lia. rewrite decide_True by lia. done.
    + rewrite list_lookup_insert_ne by done. rewrite Hlook.
      repeat case_decide; done || lia.
Qed.

Lemma shiftBody_nil h : shiftBody h [] = [].
Proof. reflexivity. Qed.

Lemma shiftBody_cons h c (l : list Coordinate) :
  shiftBody h (c :: l) = l ++ [headCopy h].
Proof.
  unfold shiftBody. change (length (c :: l)) with (S (length l)).
  rewrite seq_S, foldl_app. simpl seq. cbn [foldl].
  destruct (shiftBody_prefix h (c :: l) (length l)) as [Hlen Hlook];
    [simpl; lia|].
  set (acc := foldl (shiftCell h) (c :: l) (seq 0 (length l))) in *.
  unfold shiftCell. rewrite Hlen. simpl length.
  rewrite decide_True by lia.
  apply list_eq. intros i.
  destruct (decide (i = length l)) as [->|Hne].
  - rewrite list_lookup_insert_eq by (rewrite Hlen; simpl; lia).
    rewrite lookup_app_r by lia. by rewrite Nat.sub_diag.
  - rewrite list_lookup_insert_ne by done. rewrite Hlook.
    case_decide.
    + simpl. by rewrite lookup_app_l by lia.
    + rewrite !lookup_ge_None_2; [done | | simpl; lia].
      rewrite length_app. simpl. lia.
Qed.

(** A body of at least two cells is a tail cell, a middle and a head. *)
Lemma body_split (l : list Coordinate) :
  (2 ≤ length l)%nat → ∃ tail mid h, l = tail :: mid ++ [h].
Proof.
  intros Hlen. destruct l as [|tail l]; [simpl in Hlen; lia|].
  destruct (decide (l = [])) as [->|Hne]; [simpl in Hlen; lia|].
  destruct (exists_last Hne) as (mid & h & ->). eauto.
Qed.

(** ** Food placement *)

Section FoodPlacement.

Context (random : nat → unit01).

Lemma attemptFree_shift s k :
  attemptFree random (set_draws (S (S (draws s))) s) k
  ↔ attemptFree random s (S k).
Proof.
  unfold attemptFree. cbn [draws set_draws snakeCoordinatesMap].
  replace (S (S (draws s)) + 2 * k)%nat with (draws s + 2 * S k)%nat by lia.
  done.
Qed.

Lemma placedAt_shift s k :
  placedAt random (set_draws (S (S (draws s))) s) k = placedAt random s (S k).
Proof.
  unfold placedAt. cbn [draws set_draws].
  replace (S (S (draws s)) + 2 * k)%nat with (draws s + 2 * S k)%nat by lia.
  done.
Qed.

(** [populateFoodBall] returns exactly when an attempt within the fuel is
    free, and then the first free attempt decides the food cell. *)
Lemma populateFoodBall_spec fuel s s' :
  populateFoodBall random fuel s = Some s' ↔
  ∃ k, (k < fuel)%nat ∧ attemptFree random s k ∧
       (∀ j, (j < k)%nat → ¬ attemptFree random s j) ∧
       s' = placedAt random s k.
Proof.
  revert s. induction fuel as [|fuel IH]; intros s.
  - simpl. split; [done | intros (k & ? & _); lia].
  - cbn [populateFoodBall].
    assert (attemptFree random s 0 ↔
            coordsKey (floorScale (random (draws s)) ROWS)
                      (floorScale (random (S (draws s))) COLS)
              ∉ snakeCoordinatesMap s) as H0.
    { unfold attemptFree. by rewrite Nat.mul_0_r, Nat.add_0_r. }
    change (snakeCoordinatesMap (set_draws (S (S (draws s))) s))
      with (snakeCoordinatesMap s).
    case_bool_decide as Hocc.
    + rewrite IH. split.
      * intros (k & Hk & Hfree & Hmin & ->).
        exists (S k). split; [lia|].
        split; [exact (proj1 (attemptFree_shift s k) Hfree)|].
        split; [|by apply placedAt_shift].
        intros [|j] Hj; [rewrite H0; tauto|].
        rewrite <- attemptFree_shift. apply Hmin. lia.
      * intros (k & Hk & Hfree & Hmin & ->).
        destruct k as [|k]; [rewrite H0 in Hfree; tauto|].
        exists k. split; [lia|].
        split; [exact (proj2 (attemptFree_shift s k) Hfree)|].
        split; [|by rewrite placedAt_shift].
        intros j Hj. rewrite attemptFree_shift. apply Hmin. lia.
    + split.
      * intros [= <-]. exists 0%nat. split; [lia|]. split; [by apply H0|].
        split; [intros; lia|].
        unfold placedAt, sampleAt.
        rewrite Nat.mul_0_r, Nat.add_0_r.
        by replace (draws s + 2)%nat with (S (S (draws s))) by lia.
      * intros (k & Hk & Hfree & Hmin & ->).
        destruct k as [|k]; [|exfalso; apply (Hmin 0%nat); [lia | by apply H0]].
        unfold placedAt, sampleAt.
        rewrite Nat.mul_0_r, Nat.add_0_r.
        by replace (draws s + 2)%nat with (S (S (draws s))) by lia.
Qed.

(** Among the attempts up to a free one there is a first free one. *)
Lemma first_free_below s k :
  (∀ j, (j < k)%nat → ¬ attemptFree random s j) ∨
  ∃ k0, (k0 < k)%nat ∧ attemptFree random s k0 ∧
        ∀ j, (j < k0)%nat → ¬ attemptFree random s j.
Proof.
  induction k as [|k [Hnone|(k0 & ? & ? & ?)]].
  - left. intros; lia.
  - destruct (decide (keyOf (sampleAt random (draws s + 2 * k))
                        ∈ snakeCoordinatesMap s)) as [Hocc|Hfree].
    + left. intros j Hj. destruct (decide (j = k)) as [->|];
        [unfold attemptFree; tauto | apply Hnone; lia].
    + right. exists k. split; [lia | done].
  - right. exists k0. split; [lia | done].
Qed.

Lemma first_free_attempt s k :
  attemptFree random s k →
  ∃ k0, (k0 ≤ k)%nat ∧ attemptFree random s k0 ∧
        ∀ j, (j < k0)%nat → ¬ attemptFree random s j.
Proof.
  intros Hfree. destruct (first_free_below s k) as [Hnone|(k0 & ? & ? & ?)].
  - exists k. split; [lia | done].
  - exists k0. split; [lia | done].
Qed.

(** Enough fuel gives a result. *)
Lemma populateFoodBall_placeable fuel s :
  placeable random fuel s →
  ∃ k, (k < fuel)%nat ∧ attemptFree random s k ∧
       populateFoodBall random fuel s = Some (placedAt random s k).
Proof.
  intros (k & Hk & Hfree).
  destruct (first_free_attempt s k Hfree) as (k0 & Hle & Hfree0 & Hmin).
  exists k0. split; [lia|]. split; [done|].
  apply populateFoodBall_spec. exists k0. repeat split; try done. lia.
Qed.

(** The result does not depend on the fuel once there is enough of it. *)
Lemma populateFoodBall_fuel_mono fuel fuel' s s' :
  (fuel ≤ fuel')%nat →
  populateFoodBall random fuel s = Some s' →
  populateFoodBall random fuel' s = Some s'.
Proof.
  intros Hle. rewrite !populateFoodBall_spec.
  intros (k & ? & ? & ? & ->). exists k. repeat split; try done. lia.
Qed.

(** When every attempt lands on the snake, no amount of fuel suffices. *)
Lemma populateFoodBall_starved fuel s :
  (∀ k, ¬ attemptFree random s k) → populateFoodBall random fuel s = None.
Proof.
  intros Hall. destruct (populateFoodBall random fuel s) as [s'|] eqn:E;
    [|done].
  apply populateFoodBall_spec in E as (k & _ & Hfree & _).
  by destruct (Hall k).
Qed.

End FoodPlacement.

(** ** The tick, case by case *)

Lemma collisionCheck_map s1 s2 c :
  snakeCoordinatesMap s1 = snakeCoordinatesMap s2 →
  collisionCheck s1 c = collisionCheck s2 c.
Proof. unfold collisionCheck. by intros ->. Qed.

Lemma collisionCheck_true s c :
  collisionCheck s c = true ↔ ¬ inBounds c ∨ keyOf c ∈ snakeCoordinatesMap s.
Proof.
  unfold collisionCheck, inBounds, ROWS, COLS.
  destruct (48 <=? col c) eqn:E1, (48 <=? row c) eqn:E2,
           (col c <? 0) eqn:E3, (row c <? 0) eqn:E4; simpl;
    try (split; [intros _; left; lia | done]).
  case_bool_decide; split; try done; try tauto.
  intros [?|?]; [lia | done].
Qed.

Lemma collisionCheck_false s c :
  collisionCheck s c = false ↔ inBounds c ∧ keyOf c ∉ snakeCoordinatesMap s.
Proof.
  rewrite <- not_true_iff_false, collisionCheck_true.
  unfold inBounds. split.
  - intros H. split.
    + destruct (decide (0 <= row c < ROWS ∧ 0 <= col c < COLS)); tauto.
    + tauto.
  - tauto.
Qed.

Section Tick.

Context (random : nat → unit01).

Lemma moveSnake_over fuel s :
  gameOver s = true → moveSnake random fuel s = Some s.
Proof. unfold moveSnake, moveSnakeSeen. by intros ->. Qed.

Lemma moveSnake_body fuel s tail mid h :
  gameOver s = false →
  snakeCoordinates s = tail :: mid ++ [h] →
  moveSnake random fuel s =
    s1 ← (if onFood s h
          then populateFoodBall random fuel
                 (set_points (points s + 10) (afterShift s mid h))
          else Some (afterShift s mid h));
    Some (if collisionCheck s1 (stepHead (direction s) h) then stopGame s1
          else syncSnakeCoordinatesMap
                 (set_snakeCoordinates
                    (if onFood s h
                     then tail :: (mid ++ [headCopy h])
                                  ++ [stepHead (direction s) h]
                     else (mid ++ [headCopy h]) ++ [stepHead (direction s) h])
                    s1)).
Proof.
  intros Hgo Hbody. unfold moveSnake, moveSnakeSeen. rewrite Hgo.
  unfold moveSnakeBody. fields. rewrite Hbody.
  change ((tail :: mid ++ [h]) !! 0%nat) with (Some tail).
  rewrite app_comm_cons, last_snoc, removelast_last, shiftBody_cons.
  fold (onFood s h).
  replace (match mid ++ [headCopy h] with
           | [] => stepHead (direction s) h
           | _ :: _ => tail
           end) with tail by (by destruct mid).
  destruct (onFood s h);
    [destruct (populateFoodBall random fuel _); [|done]|];
    simpl; by destruct (collisionCheck _ _).
Qed.

End Tick.

Section TickCases.

Context (random : nat → unit01).

(** A tick whose pre-step head is off the food and whose candidate head
    collides: the array stays popped and shifted, the game is over. *)
Lemma moveSnake_plain_collide fuel s tail mid h :
  gameOver s = false →
  snakeCoordinates s = tail :: mid ++ [h] →
  onFood s h = false →
  collisionCheck s (stepHead (direction s) h) = true →
  moveSnake random fuel s = Some (stopGame (afterShift s mid h)).
Proof.
  intros Hgo Hbody Hfood Hcol.
  rewrite (moveSnake_body _ _ _ _ _ _ Hgo Hbody), Hfood. simpl.
  by rewrite (collisionCheck_map _ s) by done; rewrite Hcol.
Qed.

(** A tick whose pre-step head is off the food and whose candidate head is
    free: the candidate is appended and the set rebuilt. *)
Lemma moveSnake_plain_commit fuel s tail mid h :
  gameOver s = false →
  snakeCoordinates s = tail :: mid ++ [h] →
  onFood s h = false →
  collisionCheck s (stepHead (direction s) h) = false →
  moveSnake random fuel s =
    Some (syncSnakeCoordinatesMap
            (set_snakeCoordinates
               ((mid ++ [headCopy h]) ++ [stepHead (direction s) h])
               (afterShift s mid h))).
Proof.
  intros Hgo Hbody Hfood Hcol.
  rewrite (moveSnake_body _ _ _ _ _ _ Hgo Hbody), Hfood. simpl.
  by rewrite (collisionCheck_map _ s) by done; rewrite Hcol.
Qed.

(** A tick whose pre-step head is on the food, with enough fuel for the
    placement: the score and the food change first, then the collision
    check decides between game over and growth. *)
Lemma moveSnake_food fuel s tail mid h :
  gameOver s = false →
  snakeCoordinates s = tail :: mid ++ [h] →
  onFood s h = true →
  placeable random fuel s →
  ∃ k, (k < fuel)%nat ∧ attemptFree random s k ∧
    let s1 := placedAt random
                (set_points (points s + 10) (afterShift s mid h)) k in
    moveSnake random fuel s =
      Some (if collisionCheck s (stepHead (direction s) h) then stopGame s1
            else syncSnakeCoordinatesMap
                   (set_snakeCoordinates
                      (tail :: (mid ++ [headCopy h])
                               ++ [stepHead (direction s) h]) s1)).
Proof.
  intros Hgo Hbody Hfood Hplace.
  destruct (populateFoodBall_placeable random fuel
              (set_points (points s + 10) (afterShift s mid h)))
    as (k & Hk & Hfree & Hpop); [exact Hplace|].
  exists k. split; [done|]. split; [exact Hfree|].
  rewrite (moveSnake_body _ _ _ _ _ _ Hgo Hbody), Hfood, Hpop. simpl.
  rewrite (collisionCheck_map _ s) by done.
  by destruct (collisionCheck s (stepHead (direction s) h)).
Qed.

(** Without a free attempt within the fuel, the same tick has no result. *)
Lemma moveSnake_food_None fuel s tail mid h :
  gameOver s = false →
  snakeCoordinates s = tail :: mid ++ [h] →
  onFood s h = true →
  ¬ placeable random fuel s →
  moveSnake random fuel s = None.
Proof.
  intros Hgo Hbody Hfood Hplace.
  rewrite (moveSnake_body _ _ _ _ _ _ Hgo Hbody), Hfood.
  destruct (populateFoodBall random fuel _) as [s1|] eqn:E; [|done].
  apply populateFoodBall_spec in E as (k & Hk & Hfree & _).
  destruct Hplace. exists k. split; [done | exact Hfree].
Qed.

End TickCases.

(** ** Key sets of bodies *)

Lemma keyOf_headCopy h : keyOf (headCopy h) = keyOf h.
Proof. reflexivity. Qed.

Lemma cellOf_headCopy h : cellOf (headCopy h) = cellOf h.
Proof. reflexivity. Qed.

Lemma keysOf_cons c l : keysOf (c :: l) = {[keyOf c]} ∪ keysOf l.
Proof. reflexivity. Qed.

Lemma keysOf_app l1 l2 : keysOf (l1 ++ l2) = keysOf l1 ∪ keysOf l2.
Proof. unfold keysOf. by rewrite fmap_app, list_to_set_app_L. Qed.

Lemma keysOf_snoc l c : keysOf (l ++ [c]) = keysOf l ∪ {[keyOf c]}.
Proof.
  rewrite keysOf_app, keysOf_cons. unfold keysOf at 2. simpl.
  by rewrite (right_id_L ∅ (∪)).
Qed.

Lemma elem_of_keysOf k l : k ∈ keysOf l ↔ k ∈ keyOf <$> l.
Proof. unfold keysOf. apply elem_of_list_to_set. Qed.

(** Membership of a cell's key in a body's key set is membership of the
    cell among the body's cells. *)
Lemma keyOf_elem_cells c l :
  keyOf c ∈ keysOf l ↔ cellOf c ∈ cellOf <$> l.
Proof.
  rewrite elem_of_keysOf, !list_elem_of_fmap.
  split; intros (x & Hx & Hin); exists x; split; try done;
    by apply keyOf_cellOf.
Qed.

Lemma NoDup_keys_cells l :
  NoDup (keyOf <$> l) ↔ NoDup (cellOf <$> l).
Proof.
  induction l as [|c l IH]; [simpl; split; constructor|].
  rewrite !fmap_cons, !NoDup_cons, IH.
  rewrite <- elem_of_keysOf, keyOf_elem_cells. done.
Qed.

(** ** Well-formed sessions *)

Lemma wellFormed_frame s s' :
  snakeCoordinates s' = snakeCoordinates s →
  snakeCoordinatesMap s' = snakeCoordinatesMap s →
  gameOver s' = gameOver s →
  wellFormed s → wellFormed s'.
Proof.
  unfold wellFormed, synced, collisionAftermath.
  intros -> -> ->. done.
Qed.

Lemma snakePositions_keys_NoDup : NoDup (keyOf <$> snakePositions).
Proof. apply (bool_decide_unpack _). vm_compute. exact I. Qed.

Lemma snakePositions_inBounds : Forall inBounds snakePositions.
Proof.
  unfold snakePositions, DEFAULT_LENGTH. simpl.
  repeat constructor; unfold ROWS, COLS; simpl; lia.
Qed.

Lemma wellFormed_fresh s :
  snakeCoordinates s = snakePositions →
  snakeCoordinatesMap s = keysOf snakePositions →
  wellFormed s.
Proof.
  intros Hb Hm. unfold wellFormed, synced. rewrite Hb, Hm.
  split; [apply snakePositions_keys_NoDup|].
  split; [apply snakePositions_inBounds|].
  split; [intros _; simpl; lia | by left].
Qed.

Lemma wellFormed_stopGame s : wellFormed s → wellFormed (stopGame s).
Proof.
  unfold wellFormed, synced, collisionAftermath. fields.
  intros (Hnd & Hin & _ & Hset). repeat split; try done.
  destruct Hset as [?|[_ ?]]; [by left | by right].
Qed.

Lemma wellFormed_handleDirectionChange key s :
  wellFormed s → wellFormed (handleDirectionChange key s).
Proof.
  unfold handleDirectionChange.
  destruct (_ || _); [done|]. by apply wellFormed_frame.
Qed.

Section Invariant.

Context (random : nat → unit01).

Lemma wellFormed_populateFoodBall fuel s s' :
  populateFoodBall random fuel s = Some s' → wellFormed s → wellFormed s'.
Proof.
  intros Hpop. apply populateFoodBall_spec in Hpop as (k & _ & _ & _ & ->).
  by apply wellFormed_frame.
Qed.

Lemma wellFormed_resetGame fuel s s' :
  resetGame random fuel s = Some s' → wellFormed s'.
Proof.
  unfold resetGame. intros Hpop.
  eapply wellFormed_populateFoodBall; [exact Hpop|].
  by apply wellFormed_fresh.
Qed.

Lemma wellFormed_initEffect fuel s s' :
  initEffect random fuel s = Some s' → wellFormed s'.
Proof.
  unfold initEffect. intros Hpop.
  eapply wellFormed_populateFoodBall; [exact Hpop|].
  by apply wellFormed_fresh.
Qed.

Lemma wellFormed_startGame fuel interval s s' :
  startGame random fuel interval s = Some s' → wellFormed s → wellFormed s'.
Proof.
  unfold startGame. intros Hstart Hwf.
  destruct (gameOver s) eqn:Hgo.
  - destruct (resetGame random fuel s) as [s1|] eqn:Hr; simplify_eq/=.
    apply (wellFormed_frame s1); try done.
    by eapply wellFormed_resetGame.
  - simplify_eq/=. by apply (wellFormed_frame s).
Qed.

End Invariant.

Lemma NoDup_snoc_fresh {A} (l : list A) (x : A) :
  NoDup l → x ∉ l → NoDup (l ++ [x]).
Proof.
  intros Hnd Hx. apply NoDup_app. split; [done|]. split.
  - intros y Hy Hyx. apply list_elem_of_singleton in Hyx. by subst.
  - apply NoDup_singleton.
Qed.

Lemma keys_shifted mid h :
  keyOf <$> (mid ++ [headCopy h]) = keyOf <$> (mid ++ [h]).
Proof. by rewrite !fmap_app. Qed.

Lemma inBounds_headCopy h : inBounds (headCopy h) ↔ inBounds h.
Proof. reflexivity. Qed.

(** The second half of a tick, from the collision check on, keeps the
    invariant whether the body grows or not. *)
Lemma wellFormed_finish s s1 tail mid h (grow : bool) cand :
  wellFormed s → gameOver s = false →
  snakeCoordinates s = tail :: mid ++ [h] →
  snakeCoordinates s1 = mid ++ [headCopy h] →
  snakeCoordinatesMap s1 = snakeCoordinatesMap s →
  gameOver s1 = false →
  wellFormed
    (if collisionCheck s1 cand then stopGame s1
     else syncSnakeCoordinatesMap
            (set_snakeCoordinates
               (if grow then tail :: (mid ++ [headCopy h]) ++ [cand]
                else (mid ++ [headCopy h]) ++ [cand]) s1)).
Proof.
  intros (Hnd & Hin & _ & Hset) Hgo Hbody Hb1 Hm1 Hgo1.
  destruct Hset as [Hsync|[Hover _]]; [|congruence].
  unfold synced in Hsync. rewrite Hbody in Hnd, Hin, Hsync.
  rewrite fmap_cons in Hnd. apply NoDup_cons in Hnd as [Htail Hnd].
  apply Forall_cons in Hin as [Hintail Hin].
  assert (Forall inBounds (mid ++ [headCopy h])) as Hin'.
  { apply Forall_app in Hin as [? Hh]. apply Forall_app. split; [done|].
    rewrite Forall_singleton in Hh |- *. exact Hh. }
  destruct (collisionCheck s1 cand) eqn:Hcol.
  - unfold wellFormed, synced, collisionAftermath. fields.
    rewrite Hb1, keys_shifted. split; [done|]. split; [done|].
    split; [done|]. right. split; [done|]. exists tail.
    rewrite Hm1, Hsync, keysOf_cons.
    unfold keysOf. rewrite keys_shifted, elem_of_list_to_set. done.
  - apply collisionCheck_false in Hcol as [Hcin Hfresh].
    rewrite Hm1, Hsync, elem_of_keysOf, fmap_cons in Hfresh.
    unfold wellFormed, synced. fields.
    destruct grow.
    + split.
      { rewrite fmap_cons, fmap_app, keys_shifted.
        rewrite app_comm_cons. apply NoDup_snoc_fresh; [|done].
        by apply NoDup_cons. }
      split.
      { apply Forall_cons. split; [done|]. apply Forall_app. split; [done|].
        by apply Forall_singleton. }
      split; [|by left]. intros _. simpl. rewrite !length_app. simpl. lia.
    + split.
      { rewrite fmap_app, keys_shifted. apply NoDup_snoc_fresh; [done|].
        intros Hc. apply Hfresh. by right. }
      split.
      { apply Forall_app. split; [done|]. by apply Forall_singleton. }
      split; [|by left]. intros _. rewrite !length_app. simpl. lia.
Qed.

Section InvariantTick.

Context (random : nat → unit01).

Lemma wellFormed_moveSnake fuel s s' :
  moveSnake random fuel s = Some s' → wellFormed s → wellFormed s'.
Proof.
  intros Hmove Hwf.
  destruct (gameOver s) eqn:Hgo.
  - rewrite moveSnake_over in Hmove by done. by simplify_eq.
  - destruct (body_split (snakeCoordinates s)) as (tail & mid & h & Hbody).
    { destruct Hwf as (_ & _ & Hlen & _). by apply Hlen. }
    rewrite (moveSnake_body _ _ _ _ _ _ Hgo Hbody) in Hmove.
    destruct (onFood s h) eqn:Hfood.
    + destruct (populateFoodBall random fuel _) as [s1|] eqn:Hpop;
        [|discriminate].
      apply populateFoodBall_spec in Hpop as (k & _ & _ & _ & ->).
      simpl in Hmove. injection Hmove as <-.
      by apply (wellFormed_finish s _ tail mid h true).
    + simpl in Hmove. injection Hmove as <-.
      by apply (wellFormed_finish s _ tail mid h false).
Qed.

End InvariantTick.

(** ** The tick as a whole *)

Lemma phase_GameOver s : phase s = GameOver ↔ gameOver s = true.
Proof.
  unfold phase. destruct (gameOver s); [done|]. by destruct (timer s).
Qed.

Lemma phase_Running s : phase s = Running → gameOver s = false.
Proof. unfold phase. by destruct (gameOver s). Qed.

Lemma onFood_cell s h :
  onFood s h = true ↔ cellOf h = cellOf (foodCoords s).
Proof.
  unfold onFood, cellOf. rewrite andb_true_iff, !Z.eqb_eq.
  split; [intros [-> ->]; done | intros [= -> ->]; done].
Qed.

Lemma shiftBody_cells h l :
  cellOf <$> shiftBody h l = cellOf <$> tl (l ++ [h]).
Proof.
  destruct l as [|t l]; [done|].
  rewrite shiftBody_cons. simpl. by rewrite !fmap_app.
Qed.

Section TickSpec.

Context (random : nat → unit01).

(** The tick on a body of one cell: [snakeTail] and [snakeHead] are the
    same object, so growth repeats the stepped head. *)
Lemma moveSnake_single fuel s h :
  gameOver s = false →
  snakeCoordinates s = [h] →
  moveSnake random fuel s =
    s1 ← (if onFood s h
          then populateFoodBall random fuel
                 (set_points (points s + 10)
                    (set_snakeCoordinates []
                       (set_isPlaying (isPlaying s + 1) s)))
          else Some (set_snakeCoordinates []
                       (set_isPlaying (isPlaying s + 1) s)));
    Some (if collisionCheck s1 (stepHead (direction s) h) then stopGame s1
          else syncSnakeCoordinatesMap
                 (set_snakeCoordinates
                    (if onFood s h
                     then [stepHead (direction s) h; stepHead (direction s) h]
                     else [stepHead (direction s) h])
                    s1)).
Proof.
  intros Hgo Hbody. unfold moveSnake, moveSnakeSeen. rewrite Hgo.
  unfold moveSnakeBody. fields. rewrite Hbody.
  cbn [lookup list_lookup last removelast shiftBody length seq foldl].
  fold (onFood s h).
  destruct (onFood s h);
    [destruct (populateFoodBall random fuel _); [|done]|];
    simpl; by destruct (collisionCheck _ _).
Qed.

(** What one tick does to a session that is not over and has a body
    [l ++ [h]], given fuel for the placement when the head is on the food:
    - the game is over afterwards exactly when the candidate head fails
      the collision check against the occupied-set of before;
    - the score and the food change exactly when the pre-step head is on
      the food, and then before the collision check;
    - on collision the array is left popped and shifted and the set is
      left alone; otherwise the candidate is appended, on growth the old
      tail cell is put back in front, and the set is rebuilt. *)
Lemma moveSnake_spec fuel s l h :
  gameOver s = false →
  snakeCoordinates s = l ++ [h] →
  (onFood s h = true → placeable random fuel s) →
  let candidate := stepHead (direction s) h in
  ∃ s', moveSnake random fuel s = Some s' ∧
    gameOver s' = collisionCheck s candidate ∧
    direction s' = direction s ∧
    (if onFood s h
     then points s' = points s + 10 ∧
          ∃ k, (k < fuel)%nat ∧ attemptFree random s k ∧
               foodCoords s' = sampleAt random (draws s + 2 * k)
     else points s' = points s ∧ foodCoords s' = foodCoords s ∧
          draws s' = draws s) ∧
    (if collisionCheck s candidate
     then snakeCoordinates s' = shiftBody h l ∧
          snakeCoordinatesMap s' = snakeCoordinatesMap s ∧
          timer s' = None ∧ isPlaying s' = 0
     else snakeCoordinates s'
            = (if onFood s h then [hd candidate l] else [])
                ++ shiftBody h l ++ [candidate] ∧
          synced s' ∧
          timer s' = timer s ∧ isPlaying s' = isPlaying s + 1).
Proof.
  intros Hgo Hbody Hplace candidate. subst candidate.
  assert (moveSnake random fuel s =
    s1 ← (if onFood s h
          then populateFoodBall random fuel
                 (set_points (points s + 10)
                    (set_snakeCoordinates (shiftBody h l)
                       (set_isPlaying (isPlaying s + 1) s)))
          else Some (set_snakeCoordinates (shiftBody h l)
                       (set_isPlaying (isPlaying s + 1) s)));
    Some (if collisionCheck s1 (stepHead (direction s) h) then stopGame s1
          else syncSnakeCoordinatesMap
                 (set_snakeCoordinates
                    ((if onFood s h
                      then [hd (stepHead (direction s) h) l] else [])
                       ++ shiftBody h l ++ [stepHead (direction s) h])
                    s1))) as Hmove.
  { destruct l as [|t l].
    - rewrite (moveSnake_single fuel s h Hgo Hbody).
      by destruct (onFood s h).
    - rewrite (moveSnake_body random fuel s t l h Hgo Hbody).
      rewrite shiftBody_cons. by destruct (onFood s h). }
  rewrite Hmove. clear Hmove.
  destruct (onFood s h) eqn:Hfood.
  - destruct (populateFoodBall_placeable random fuel
                (set_points (points s + 10)
                   (set_snakeCoordinates (shiftBody h l)
                      (set_isPlaying (isPlaying s + 1) s))))
      as (k & Hk & Hfree & ->); [by apply Hplace|].
    eexists. split; [reflexivity|].
    rewrite (collisionCheck_map _ s) by done.
    destruct (collisionCheck s _); fields;
      (split; [done|]); (split; [done|]);
      (split; [split; [done | by exists k]|]); done.
  - eexists. split; [reflexivity|].
    rewrite (collisionCheck_map _ s) by done.
    destruct (collisionCheck s _); fields; done.
Qed.

End TickSpec.

Section TickAndTimer.

Context (random : nat → unit01).



End TickAndTimer.


(** ** Ticks that return *)

Section TickResults.

Context (random : nat → unit01).

(** A tick on a body [l ++ [h]] that returns had the fuel it needed. *)
Lemma moveSnake_Some_placeable fuel s l h s' :
  gameOver s = false →
  snakeCoordinates s = l ++ [h] →
  moveSnake random fuel s = Some s' →
  onFood s h = true → placeable random fuel s.
Proof.
  intros Hgo Hbody Hmove Hon.
  destruct (first_free_below random s fuel) as [Hnone|(k & Hk & Hfree & _)];
    [|by exists k].
  exfalso.
  assert (populateFoodBall random fuel
            (set_points (points s + 10)
               (set_snakeCoordinates (shiftBody h l)
                  (set_isPlaying (isPlaying s + 1) s))) = None) as Hpop.
  { destruct (populateFoodBall random fuel _) as [s1|] eqn:E; [|done].
    apply populateFoodBall_spec in E as (k & Hk & Hfree & _).
    by destruct (Hnone k Hk). }
  destruct l as [|t l].
  - rewrite (moveSnake_single random fuel s h Hgo Hbody), Hon in Hmove.
    rewrite shiftBody_nil in Hpop. by rewrite Hpop in Hmove.
  - rewrite (moveSnake_body random fuel s t l h Hgo Hbody), Hon in Hmove.
    rewrite shiftBody_cons in Hpop. unfold afterShift in Hmove.
    by rewrite Hpop in Hmove.
Qed.

(** The result of a tick that returns, read off [moveSnake_spec]. *)
Lemma moveSnake_Some fuel s l h s' :
  gameOver s = false →
  snakeCoordinates s = l ++ [h] →
  moveSnake random fuel s = Some s' →
  let candidate := stepHead (direction s) h in
  gameOver s' = collisionCheck s candidate ∧
  direction s' = direction s ∧
  (if onFood s h
   then points s' = points s + 10 ∧
        ∃ k, (k < fuel)%nat ∧ attemptFree random s k ∧
             foodCoords s' = sampleAt random (draws s + 2 * k)
   else points s' = points s ∧ foodCoords s' = foodCoords s ∧
        draws s' = draws s) ∧
  (if collisionCheck s candidate
   then snakeCoordinates s' = shiftBody h l ∧
        snakeCoordinatesMap s' = snakeCoordinatesMap s ∧
        timer s' = None ∧ isPlaying s' = 0
   else snakeCoordinates s'
          = (if onFood s h then [hd candidate l] else [])
              ++ shiftBody h l ++ [candidate] ∧
        synced s' ∧
        timer s' = timer s ∧ isPlaying s' = isPlaying s + 1).
Proof.
  intros Hgo Hbody Hmove.
  destruct (moveSnake_spec random fuel s l h Hgo Hbody)
    as (s'' & Hmove' & Hrest).
  { by apply (moveSnake_Some_placeable fuel s l h s'). }
  rewrite Hmove in Hmove'. injection Hmove' as <-. exact Hrest.
Qed.

End TickResults.

Lemma length_shiftBody h l : length (shiftBody h l) = length l.
Proof.
  destruct l as [|t l]; [done|].
  rewrite shiftBody_cons, length_app. simpl. lia.
Qed.

(** A tick that commits a move, on a body of at least two cells, keeps
    the cells of the body on growth, drops the first on a plain move, and
    appends the candidate cell. *)
Lemma committed_cells (grow : bool) t l h candidate :
  cellOf <$> ((if grow then [hd candidate (t :: l)] else [])
                ++ shiftBody h (t :: l) ++ [candidate])
  = (if grow then cellOf <$> (t :: l ++ [h])
     else tl (cellOf <$> (t :: l ++ [h]))) ++ [cellOf candidate].
Proof.
  rewrite shiftBody_cons. destruct grow; simpl;
    rewrite !fmap_app; simpl; by rewrite <- ?app_assoc.
Qed.

(** What [resetGame] and the mount effect return. *)
Lemma resetGame_Some random fuel s s' :
  resetGame random fuel s = Some s' →
  snakeCoordinates s' = snakePositions ∧
  snakeCoordinatesMap s' = keysOf snakePositions ∧
  direction s' = RIGHT ∧ points s' = 0 ∧ gameOver s' = false ∧
  timer s' = timer s ∧ isPlaying s' = isPlaying s ∧
  inBounds (foodCoords s') ∧
  cellOf (foodCoords s') ∉ cellOf <$> snakePositions.
Proof.
  unfold resetGame. intros Hpop.
  apply populateFoodBall_spec in Hpop as (k & _ & Hfree & _ & ->). fields.
  do 7 (split; [done|]). split; [apply sampleAt_inBounds|].
  rewrite <- keyOf_elem_cells. exact Hfree.
Qed.

Lemma initEffect_Some random fuel s' :
  initEffect random fuel mount = Some s' →
  snakeCoordinates s' = snakePositions ∧
  snakeCoordinatesMap s' = keysOf snakePositions ∧
  direction s' = RIGHT ∧ points s' = 0 ∧ gameOver s' = false ∧
  timer s' = None ∧ isPlaying s' = 0 ∧
  inBounds (foodCoords s') ∧
  cellOf (foodCoords s') ∉ cellOf <$> snakePositions.
Proof.
  unfold initEffect. intros Hpop.
  apply populateFoodBall_spec in Hpop as (k & _ & Hfree & _ & ->). fields.
  do 7 (split; [done|]). split; [apply sampleAt_inBounds|].
  rewrite <- keyOf_elem_cells. exact Hfree.
Qed.

(** ** The function body, for any sharing *)

Section TickBody.

Context (random : nat → unit01).

Lemma moveSnakeSeen_false fuel s :
  moveSnakeSeen random false fuel s = moveSnakeBody random false fuel s.
Proof. reflexivity. Qed.

Lemma moveSnake_moveSnakeBody fuel s :
  gameOver s = false →
  moveSnake random fuel s = moveSnakeBody random false fuel s.
Proof. unfold moveSnake. by intros ->. Qed.

Lemma moveSnakeBody_empty sameObject fuel s :
  snakeCoordinates s = [] →
  moveSnakeBody random sameObject fuel s
  = Some (set_isPlaying (isPlaying s + 1) s).
Proof. intros Hbody. unfold moveSnakeBody. fields. by rewrite Hbody. Qed.

(** The function body on an array [l ++ [h]]. *)
Lemma moveSnakeBody_unfold sameObject fuel s l h :
  snakeCoordinates s = l ++ [h] →
  moveSnakeBody random sameObject fuel s =
    s1 ← (if onFood s h
          then populateFoodBall random fuel
                 (set_points (points s + 10)
                    (set_snakeCoordinates (shiftBody h l)
                       (set_isPlaying (isPlaying s + 1) s)))
          else Some (set_snakeCoordinates (shiftBody h l)
                       (set_isPlaying (isPlaying s + 1) s)));
    Some (if collisionCheck s1 (stepHead (direction s) h) then stopGame s1
          else syncSnakeCoordinatesMap
                 (set_snakeCoordinates
                    ((if onFood s h
                      then [if sameObject then stepHead (direction s) h
                            else hd (stepHead (direction s) h) l]
                      else [])
                       ++ shiftBody h l ++ [stepHead (direction s) h])
                    s1)).
Proof.
  intros Hbody. unfold moveSnakeBody. fields. rewrite Hbody.
  rewrite last_snoc, removelast_last.
  assert ((l ++ [h]) !! 0%nat = Some (hd h l)) as -> by (by destruct l).
  fold (onFood s h).
  assert ((if sameObject then stepHead (direction s) h
           else match shiftBody h l with
                | [] => stepHead (direction s) h
                | _ :: _ => hd h l
                end)
          = (if sameObject then stepHead (direction s) h
             else hd (stepHead (direction s) h) l)) as ->.
  { destruct sameObject; [done|]. destruct l as [|t l]; [done|].
    rewrite shiftBody_cons. by destruct l. }
  destruct (onFood s h);
    [destruct (populateFoodBall random fuel _); [|done]|];
    simpl; by destruct (collisionCheck _ _).
Qed.

(** What the function body does to a session with an array [l ++ [h]],
    over or not, given fuel for the placement when the head is on the
    food. On growth the cell put in front is the old first cell, or the
    stepped head when the two are one object. *)
Lemma moveSnakeBody_spec sameObject fuel s l h :
  snakeCoordinates s = l ++ [h] →
  (onFood s h = true → placeable random fuel s) →
  let candidate := stepHead (direction s) h in
  ∃ s', moveSnakeBody random sameObject fuel s = Some s' ∧
    gameOver s' = gameOver s || collisionCheck s candidate ∧
    direction s' = direction s ∧
    (if onFood s h
     then points s' = points s + 10 ∧
          ∃ k, (k < fuel)%nat ∧ attemptFree random s k ∧
               foodCoords s' = sampleAt random (draws s + 2 * k)
     else points s' = points s ∧ foodCoords s' = foodCoords s ∧
          draws s' = draws s) ∧
    (if collisionCheck s candidate
     then snakeCoordinates s' = shiftBody h l ∧
          snakeCoordinatesMap s' = snakeCoordinatesMap s ∧
          timer s' = None ∧ isPlaying s' = 0
     else snakeCoordinates s'
            = (if onFood s h
               then [if sameObject then candidate else hd candidate l]
               else [])
                ++ shiftBody h l ++ [candidate] ∧
          synced s' ∧
          timer s' = timer s ∧ isPlaying s' = isPlaying s + 1).
Proof.
  intros Hbody Hplace candidate. subst candidate.
  rewrite (moveSnakeBody_unfold sameObject fuel s l h Hbody).
  destruct (onFood s h) eqn:Hfood.
  - destruct (populateFoodBall_placeable random fuel
                (set_points (points s + 10)
                   (set_snakeCoordinates (shiftBody h l)
                      (set_isPlaying (isPlaying s + 1) s))))
      as (k & Hk & Hfree & ->); [by apply Hplace|].
    eexists. split; [reflexivity|].
    rewrite (collisionCheck_map _ s) by done.
    destruct (collisionCheck s _); fields;
      (split; [by rewrite ?orb_true_r, ?orb_false_r|]); (split; [done|]);
      (split; [split; [done | by exists k]|]); done.
  - eexists. split; [reflexivity|].
    rewrite (collisionCheck_map _ s) by done.
    destruct (collisionCheck s _); fields;
      (split; [by rewrite ?orb_true_r, ?orb_false_r|]); done.
Qed.

(** A call on an array [l ++ [h]] that returns had the fuel it needed. *)
Lemma moveSnakeBody_Some_placeable sameObject fuel s l h s' :
  snakeCoordinates s = l ++ [h] →
  moveSnakeBody random sameObject fuel s = Some s' →
  onFood s h = true → placeable random fuel s.
Proof.
  intros Hbody Hmove Hon.
  destruct (first_free_below random s fuel) as [Hnone|(k & Hk & Hfree & _)];
    [|by exists k].
  exfalso.
  rewrite (moveSnakeBody_unfold sameObject fuel s l h Hbody), Hon in Hmove.
  destruct (populateFoodBall random fuel _) as [s1|] eqn:E; [|done].
  apply populateFoodBall_spec in E as (k & Hk & Hfree & _).
  by destruct (Hnone k Hk).
Qed.

(** The result of a call that returns, read off [moveSnakeBody_spec]. *)
Lemma moveSnakeBody_Some sameObject fuel s l h s' :
  snakeCoordinates s = l ++ [h] →
  moveSnakeBody random sameObject fuel s = Some s' →
  let candidate := stepHead (direction s) h in
  gameOver s' = gameOver s || collisionCheck s candidate ∧
  direction s' = direction s ∧
  (if onFood s h
   then points s' = points s + 10 ∧
        ∃ k, (k < fuel)%nat ∧ attemptFree random s k ∧
             foodCoords s' = sampleAt random (draws s + 2 * k)
   else points s' = points s ∧ foodCoords s' = foodCoords s ∧
        draws s' = draws s) ∧
  (if collisionCheck s candidate
   then snakeCoordinates s' = shiftBody h l ∧
        snakeCoordinatesMap s' = snakeCoordinatesMap s ∧
        timer s' = None ∧ isPlaying s' = 0
   else snakeCoordinates s'
          = (if onFood s h
             then [if sameObject then candidate else hd candidate l]
             else [])
              ++ shiftBody h l ++ [candidate] ∧
        synced s' ∧
        timer s' = timer s ∧ isPlaying s' = isPlaying s + 1).
Proof.
  intros Hbody Hmove.
  destruct (moveSnakeBody_spec sameObject fuel s l h Hbody)
    as (s'' & Hmove' & Hrest).
  { by apply (moveSnakeBody_Some_placeable sameObject fuel s l h s'). }
  rewrite Hmove in Hmove'. injection Hmove' as <-. exact Hrest.
Qed.

End TickBody.



(** ** The invariant of reachable pages *)

Lemma shiftBody_elem h l x : x ∈ shiftBody h l → x ∈ l ∨ x = headCopy h.
Proof.
  destruct l as [|t l]; [by intros ?%elem_of_nil|].
  rewrite shiftBody_cons, elem_of_app, list_elem_of_singleton.
  intros [?|?]; [left; by right | by right].
Qed.

Lemma keysOf_shiftBody h l : keysOf (shiftBody h l) ⊆ keysOf (l ++ [h]).
Proof.
  intros k. rewrite !elem_of_keysOf, !list_elem_of_fmap.
  intros (x & -> & Hx). apply shiftBody_elem in Hx as [Hx| ->].
  - exists x. split; [done|]. apply elem_of_app. by left.
  - exists h. split; [done|]. apply elem_of_app. right.
    by apply list_elem_of_singleton.
Qed.

Lemma inBounds_shiftBody h l :
  Forall inBounds (l ++ [h]) → Forall inBounds (shiftBody h l).
Proof.
  rewrite !Forall_forall. intros Hin x Hx.
  apply shiftBody_elem in Hx as [Hx| ->].
  - apply Hin, elem_of_app. by left.
  - apply inBounds_headCopy, Hin, elem_of_app. right.
    by apply list_elem_of_singleton.
Qed.

Lemma sound_fresh s :
  snakeCoordinates s = snakePositions →
  snakeCoordinatesMap s = keysOf snakePositions →
  sound (mkPage s false).
Proof.
  intros Hb Hm. unfold sound. cbn [refs tailIsHead].
  split; [by rewrite Hb, Hm|].
  split; [rewrite Hb; apply snakePositions_inBounds|].
  intros _. split; [by apply wellFormed_fresh|].
  split; [|done]. unfold synced. by rewrite Hb, Hm.
Qed.

(** An operation that leaves the array and the set alone and does not
    reopen the game. *)
Lemma sound_frame p s' :
  snakeCoordinates s' = snakeCoordinates (refs p) →
  snakeCoordinatesMap s' = snakeCoordinatesMap (refs p) →
  gameOver s' = gameOver (refs p) ∨ gameOver s' = true →
  sound p → sound (mkPage s' (tailIsHead p)).
Proof.
  intros Hb Hm Hgo (Hsub & Hin & Hrun). unfold sound. cbn [refs tailIsHead].
  rewrite Hb, Hm. split; [done|]. split; [done|].
  intros Hgo'.
  assert (gameOver (refs p) = false) as Hgo0 by (destruct Hgo; congruence).
  destruct (Hrun Hgo0) as (Hwf & Hsync & Hshare).
  split; [|split; [|done]].
  - apply (wellFormed_frame (refs p)); [done | done | congruence | done].
  - unfold synced. by rewrite Hb, Hm.
Qed.

Section SoundPages.

Context (random : nat → unit01).

Lemma sound_intervalTick fuel p p' :
  sound p → intervalTick random fuel p = Some p' → sound p'.
Proof.
  intros (Hsub & Hin & Hrun) Htick. unfold intervalTick in Htick.
  destruct (moveSnakeBody random (tailIsHead p) fuel (refs p))
    as [s'|] eqn:Hmove; [|discriminate].
  simpl in Htick. injection Htick as <-.
  destruct (snakeCoordinates (refs p)) as [|h l _] eqn:Hbody using rev_ind.
  { rewrite moveSnakeBody_empty in Hmove by done. injection Hmove as <-.
    unfold sound. cbn [refs tailIsHead]. fields. rewrite Hbody.
    split; [done|]. split; [done|]. intros Hgo.
    destruct (Hrun Hgo) as ((_ & _ & Hlen & _) & _).
    specialize (Hlen Hgo). rewrite Hbody in Hlen. simpl in Hlen. lia. }
  destruct (moveSnakeBody_Some random _ fuel (refs p) l h s' Hbody Hmove)
    as (Hover & _ & _ & Hrest).
  unfold sound. cbn [refs tailIsHead].
  destruct (collisionCheck (refs p) _) eqn:Hcol.
  - destruct Hrest as (Hshift & Hmap & _).
    rewrite Hshift, Hmap. split.
    { etrans; [apply keysOf_shiftBody | exact Hsub]. }
    split; [by apply inBounds_shiftBody|].
    rewrite Hover, orb_true_r. discriminate.
  - destruct Hrest as (Hnew & Hsync & _).
    apply collisionCheck_false in Hcol as [Hcin _].
    split; [by rewrite Hsync|]. split.
    { rewrite Hnew. apply Forall_app. split.
      - destruct (onFood (refs p) h); [|done]. apply Forall_singleton.
        destruct (tailIsHead p); [done|]. destruct l as [|t l]; [done|].
        simpl. by apply Forall_app in Hin as [[? _]%Forall_cons _].
      - apply Forall_app. split; [by apply inBounds_shiftBody|].
        by apply Forall_singleton. }
    rewrite Hover, orb_false_r. intros Hgo.
    destruct (Hrun Hgo) as (Hwf & _ & Hshare).
    assert (moveSnake random fuel (refs p) = Some s') as Hmove'.
    { rewrite moveSnake_moveSnakeBody by done. by rewrite <- Hshare. }
    split; [by eapply wellFormed_moveSnake|]. split; [exact Hsync|].
    rewrite Hshare. destruct Hwf as (_ & _ & Hlen & _).
    specialize (Hlen Hgo). rewrite Hbody, length_app in Hlen. simpl in Hlen.
    rewrite (bool_decide_eq_false_2 (length (l ++ [h]) = 1%nat))
      by (rewrite length_app; simpl; lia).
    by rewrite andb_false_r.
Qed.

Lemma sound_run fuel op p p' :
  sound p → run random fuel op p = Some p' → sound p'.
Proof.
  intros Hsound Hrun. destruct op; simpl in Hrun.
  - destruct (resetGame random fuel (refs p)) as [s'|] eqn:Hreset;
      [|discriminate].
    simpl in Hrun. injection Hrun as <-.
    apply resetGame_Some in Hreset as (? & ? & _). by apply sound_fresh.
  - unfold startGame in Hrun. destruct (gameOver (refs p)) eqn:Hgo.
    + destruct (resetGame random fuel (refs p)) as [s1|] eqn:Hreset;
        [|discriminate].
      simpl in Hrun. injection Hrun as <-.
      apply resetGame_Some in Hreset as (? & ? & _). by apply sound_fresh.
    + simpl in Hrun. injection Hrun as <-.
      apply sound_frame; fields; auto.
  - injection Hrun as <-. apply sound_frame; [| | |done];
      unfold handleDirectionChange; destruct (_ || _); fields; auto.
  - by eapply sound_intervalTick.
  - injection Hrun as <-. apply sound_frame; fields; auto.
Qed.

Lemma reachablePage_sound p : reachablePage random p → sound p.
Proof.
  induction 1 as [fuel s Hinit | fuel op p p' _ IH Hrun].
  - apply initEffect_Some in Hinit as (? & ? & _). by apply sound_fresh.
  - by eapply sound_run.
Qed.

Lemma reachable_sound s :
  reachable random s → ∃ p, sound p ∧ refs p = s.
Proof.
  intros (p & Hreach & <-). exists p. split; [|done].
  by apply reachablePage_sound.
Qed.

(** The occupied-set of a reachable session holds the keys of its array. *)
Lemma reachable_keys_in_set s :
  reachable random s →
  keysOf (snakeCoordinates s) ⊆ snakeCoordinatesMap s.
Proof. intros (p & (? & _) & <-)%reachable_sound. done. Qed.

Lemma reachable_inBounds s :
  reachable random s → Forall inBounds (snakeCoordinates s).
Proof. intros (p & (_ & ? & _) & <-)%reachable_sound. done. Qed.

(** A reachable session that is not over is well formed, with an exact
    occupied-set. *)
Lemma reachable_running s :
  reachable random s → gameOver s = false → wellFormed s ∧ synced s.
Proof.
  intros (p & (_ & _ & Hrun) & <-)%reachable_sound Hgo.
  destruct (Hrun Hgo) as (? & ? & _). done.
Qed.

(** Induction over reachable sessions, with the invariant at hand. *)
Lemma reachable_invariant (P : State → Prop) :
  (∀ fuel s, initEffect random fuel mount = Some s → P s) →
  (∀ fuel op p p', sound p → P (refs p) →
                   run random fuel op p = Some p' → P (refs p')) →
  ∀ s, reachable random s → P s.
Proof.
  intros Hinit Hstep s (p & Hreach & <-).
  induction Hreach as [fuel s Hs | fuel op p p' Hreach IH Hrun].
  - by eapply Hinit.
  - eapply Hstep; [by apply reachablePage_sound | exact IH | exact Hrun].
Qed.

(** What one operation does to a page: it starts the default game, or it
    leaves the snake, the food and the score alone, or it is a tick on an
    array that is not empty. *)
Lemma run_effect fuel op p p' :
  sound p →
  run random fuel op p = Some p' →
  (snakeCoordinates (refs p') = snakePositions ∧
   snakeCoordinatesMap (refs p') = keysOf snakePositions ∧
   direction (refs p') = RIGHT ∧ points (refs p') = 0 ∧
   gameOver (refs p') = false ∧
   inBounds (foodCoords (refs p')) ∧
   cellOf (foodCoords (refs p')) ∉ cellOf <$> snakePositions)
  ∨ (snakeCoordinates (refs p') = snakeCoordinates (refs p) ∧
     snakeCoordinatesMap (refs p') = snakeCoordinatesMap (refs p) ∧
     foodCoords (refs p') = foodCoords (refs p) ∧
     points (refs p') = points (refs p) ∧
     (gameOver (refs p') = gameOver (refs p) ∨ gameOver (refs p') = true))
  ∨ (op = OpTick ∧
     ∃ l h, snakeCoordinates (refs p) = l ++ [h] ∧
            moveSnakeBody random (tailIsHead p) fuel (refs p)
              = Some (refs p') ∧
            (gameOver (refs p) = false →
             synced (refs p) ∧ tailIsHead p = false ∧
             ∃ t l', l = t :: l')).
Proof.
  intros (_ & _ & Hsound) Hrun. destruct op; simpl in Hrun.
  - destruct (resetGame random fuel (refs p)) as [s'|] eqn:Hreset;
      [|discriminate].
    simpl in Hrun. injection Hrun as <-.
    left. apply resetGame_Some in Hreset. cbn [refs]. tauto.
  - unfold startGame in Hrun. destruct (gameOver (refs p)) eqn:Hgo.
    + destruct (resetGame random fuel (refs p)) as [s1|] eqn:Hreset;
        [|discriminate].
      simpl in Hrun. injection Hrun as <-.
      apply resetGame_Some in Hreset. left. cbn [refs]. fields. tauto.
    + simpl in Hrun. injection Hrun as <-. right. left.
      cbn [refs]. fields. tauto.
  - injection Hrun as <-. right. left. cbn [refs].
    unfold handleDirectionChange. destruct (_ || _); fields; tauto.
  - unfold intervalTick in Hrun.
    destruct (moveSnakeBody random (tailIsHead p) fuel (refs p))
      as [s'|] eqn:Hmove; [|discriminate].
    simpl in Hrun. injection Hrun as <-. cbn [refs].
    destruct (snakeCoordinates (refs p)) as [|h l _] eqn:Hbody using rev_ind.
    + rewrite moveSnakeBody_empty in Hmove by done. injection Hmove as <-.
      right. left. fields. rewrite Hbody. tauto.
    + right. right. split; [done|]. exists l, h.
      split; [done|]. split; [done|]. intros Hgo.
      destruct (Hsound Hgo) as ((_ & _ & Hlen & _) & Hsync & Hshare).
      split; [done|]. split; [done|].
      specialize (Hlen Hgo). rewrite Hbody, length_app in Hlen.
      destruct l as [|t l']; [simpl in Hlen; lia | eauto].
  - injection Hrun as <-. right. left. cbn [refs]. fields. tauto.
Qed.

End SoundPages.

(** ** Sessions are reachable states *)

Lemma runOps_reachable random fuel ops p p' :
  reachablePage random p → runOps random fuel ops p = Some p' →
  reachablePage random p'.
Proof.
  unfold runOps. revert p'.
  induction ops as [|op ops IH] using rev_ind; intros p' Hp Hrun.
  - simpl in Hrun. by simplify_eq.
  - rewrite foldl_app in Hrun. simpl in Hrun.
    destruct (foldl _ (Some p) ops) as [p1|] eqn:E; [|discriminate].
    simpl in Hrun. eapply reachable_step; [|exact Hrun]. by apply IH.
Qed.

Lemma session_reachable random fuel ops s :
  session random fuel ops = Some s → reachable random s.
Proof.
  unfold session. intros Hs.
  destruct (initEffect random fuel mount) as [s0|] eqn:E; [|discriminate].
  simpl in Hs.
  destruct (runOps random fuel ops (mkPage s0 false)) as [p|] eqn:Hrun;
    [|discriminate].
  simpl in Hs. injection Hs as <-. exists p. split; [|done].
  eapply runOps_reachable; [|exact Hrun]. by eapply reachable_init.
Qed.

(** Every event of the page is a public operation. *)
Lemma handle_run random fuel event b b' :
  handle random fuel event b = Some b' →
  ∃ op, run random fuel op (page b) = Some (page b').
Proof.
  unfold handle. intros Hev. destruct event.
  - destruct (gameOver (refs (page b))); [discriminate|].
    case_bool_decide.
    + case_bool_decide; [discriminate|].
      destruct (run random fuel (OpStart interval) (page b)) as [p'|] eqn:E;
        [|discriminate].
      simpl in Hev. injection Hev as <-. by exists (OpStart interval).
    + destruct (run random fuel OpStop (page b)) as [p'|] eqn:E;
        [|discriminate].
      simpl in Hev. injection Hev as <-. by exists OpStop.
  - destruct (gameOver (refs (page b))); [|discriminate].
    destruct (run random fuel OpReset (page b)) as [p'|] eqn:E;
      [|discriminate].
    simpl in Hev. injection Hev as <-. by exists OpReset.
  - destruct (run random fuel (OpSetDirection key) (page b)) as [p'|] eqn:E;
      [|discriminate].
    simpl in Hev. injection Hev as <-. by exists (OpSetDirection key).
  - case_bool_decide; [|discriminate].
    destruct (run random fuel OpTick (page b)) as [p'|] eqn:E;
      [|discriminate].
    simpl in Hev. injection Hev as <-. by exists OpTick.
Qed.

Lemma browse_reachable random fuel events b :
  browse random fuel events = Some b → reachable random (refs (page b)).
Proof.
  unfold browse. intros Hb.
  destruct (initEffect random fuel mount) as [s0|] eqn:E; [|discriminate].
  simpl in Hb. exists (page b). split; [|done].
  revert b Hb. induction events as [|event events IH] using rev_ind;
    intros b Hb.
  - simpl in Hb. injection Hb as <-. by eapply reachable_init.
  - rewrite foldl_app in Hb. simpl in Hb.
    destruct (foldl _ _ events) as [b1|] eqn:E1; [|discriminate].
    simpl in Hb. apply handle_run in Hb as (op & Hrun).
    eapply reachable_step; [|exact Hrun]. by apply IH.
Qed.

Lemma idleSession_reachable : reachable centreDraws idleSession.
Proof. apply (session_reachable _ 1 []). vm_compute. reflexivity. Qed.

Lemma loopSession_reachable : reachable centreDraws loopSession.
Proof. apply (session_reachable _ 1 loopOps). vm_compute. reflexivity. Qed.

Lemma wallSession_reachable : reachable centreDraws wallSession.
Proof. apply (session_reachable _ 1 wallOps). vm_compute. reflexivity. Qed.

Lemma wallOver_reachable : reachable centreDraws wallOver.
Proof.
  apply (session_reachable _ 1 (wallOps ++ [OpTick])).
  vm_compute. reflexivity.
Qed.

Lemma aheadSession_reachable : reachable growDraws aheadSession.
Proof. apply (session_reachable _ 1 [OpStart 1]). vm_compute. reflexivity. Qed.

Lemma onFoodSession_reachable : reachable growDraws onFoodSession.
Proof.
  apply (session_reachable _ 1 [OpStart 1; OpTick]). vm_compute. reflexivity.
Qed.

Lemma grownSession_reachable : reachable growDraws grownSession.
Proof.
  apply (session_reachable _ 1 [OpStart 1; OpTick; OpTick]).
  vm_compute. reflexivity.
Qed.

Lemma cornerSession_reachable : reachable cornerDraws cornerSession.
Proof.
  apply (session_reachable _ 1 (OpStart 1 :: replicate 38 OpTick)).
  vm_compute. reflexivity.
Qed.



Lemma leakEvents_browsed :
  browse leakDraws 1 leakEvents
  = Some (mkBrowser (mkPage doubledSession true) {[1%positive]}).
Proof. vm_compute. reflexivity. Qed.

Lemma doubledSession_reachable : reachable leakDraws doubledSession.
Proof. apply (browse_reachable _ _ _ _ leakEvents_browsed). Qed.

(** * The claims *)

(** ** C7: the direction controller *)

(** C7. For every current direction and every requested direction, the
    request made through its arrow key is dropped when it is the exact
    opposite of the current direction and is committed otherwise; nothing
    else in the session changes, and the operation always returns a
    session (it has no error outcome). *)
Theorem C7_setDirection_rejects_exact_opposite (s : State) (r : Direction) :
  handleDirectionChange (arrowKey r) s
    = (if opposite (direction s) r then s else set_direction r s)
  ∧ direction (handleDirectionChange (arrowKey r) s)
    = (if opposite (direction s) r then direction s else r).
Proof.
  unfold handleDirectionChange, getNewDirection.
  destruct s as [t b d m f p g i n]; fields.
  destruct d, r; split; reflexivity.
Qed.

(** Any other key leaves the session as it is. *)
Lemma handleDirectionChange_other_key key s :
  key ≠ "ArrowUp" → key ≠ "ArrowDown" → key ≠ "ArrowRight" →
  key ≠ "ArrowLeft" →
  direction (handleDirectionChange key s) = direction s.
Proof.
  intros. unfold handleDirectionChange, getNewDirection.
  rewrite !decide_False by done.
  by destruct (_ || _).
Qed.

(** ** C6: ticks outside the running phase *)




(** ** C8: the body has distinct in-bounds cells *)

(** While the game is not over, the body of a reachable session has
    distinct cells; in every reachable session they are in bounds. *)
Lemma reachable_running_distinct random s :
  reachable random s → gameOver s = false →
  NoDup (cellOf <$> snakeCoordinates s).
Proof.
  intros Hreach Hgo.
  destruct (reachable_running random s Hreach Hgo) as ((Hnd & _) & _).
  by apply NoDup_keys_cells.
Qed.

(** C8 (the code at the failing input). START is clicked twice before the
    first tick and the snake is turned up: the first firing of interval 1
    hits the wall and [stopGame] clears interval 2 only. Interval 1 fires
    on in the GameOver phase, its callback still seeing [gameOver = false]:
    eight more collisions leave one cell in the array; turned right, the
    cell walks onto the food at (0, 11), and the firing that eats the food
    puts the one object in front of itself. The reachable session has the
    body [(0, 12); (0, 12)]: a duplicate cell. Its cells are in bounds. *)
Theorem C8_leaked_interval_repeats_a_cell :
  browse leakDraws 1 leakEvents
  = Some (mkBrowser (mkPage doubledSession true) {[1%positive]}) ∧
  reachable leakDraws doubledSession ∧
  phase doubledSession = GameOver ∧
  cellOf <$> snakeCoordinates doubledSession = [(0, 12); (0, 12)] ∧
  ¬ NoDup (cellOf <$> snakeCoordinates doubledSession) ∧
  Forall inBounds (snakeCoordinates doubledSession).
Proof.
  split; [exact leakEvents_browsed|].
  split; [exact doubledSession_reachable|].
  split; [reflexivity|]. split; [reflexivity|]. split.
  - intros Hnd. apply NoDup_cons in Hnd as [Hnotin _].
    apply Hnotin. by left.
  - by apply (reachable_inBounds leakDraws), doubledSession_reachable.
Qed.

(** ** C3: the occupied-set against the body *)

(** C3 (counterexample). After the colliding tick of the wall session the
    occupied-set still holds the ten keys of the body before the tick,
    while the array holds nine cells. *)
Lemma C3_stale_set_counterexample :
  ¬ (∀ random s,
       reachable random s →
       snakeCoordinatesMap s = keysOf (snakeCoordinates s)).
Proof.
  intros H. specialize (H centreDraws wallOver wallOver_reachable).
  assert ("0:0" ∈ snakeCoordinatesMap wallOver) as Hin
    by (apply (bool_decide_unpack _); vm_compute; exact I).
  rewrite H in Hin. revert Hin.
  apply (bool_decide_unpack _). vm_compute. exact I.
Qed.

(** C3 (amended). In every reachable state the occupied-set holds the key
    of every cell of the body, and while the game is not over it holds
    nothing else: the two are equal. Once the game is over the set may
    hold more, since a colliding tick drops a cell from the array and
    leaves its key in the set. *)
Theorem C3_set_holds_body_keys_and_is_exact_while_not_over random s :
  reachable random s →
  (∀ c, c ∈ snakeCoordinates s → keyOf c ∈ snakeCoordinatesMap s) ∧
  (gameOver s = false →
   snakeCoordinatesMap s = keysOf (snakeCoordinates s)).
Proof.
  intros Hreach. split.
  - intros c Hc. apply (reachable_keys_in_set random s Hreach).
    apply elem_of_keysOf, list_elem_of_fmap. by exists c.
  - intros Hgo. by destruct (reachable_running random s Hreach Hgo).
Qed.

Lemma C3_set_holds_body_keys_witness :
  (∀ c, c ∈ snakeCoordinates wallOver →
        keyOf c ∈ snakeCoordinatesMap wallOver) ∧
  (gameOver wallOver = false →
   snakeCoordinatesMap wallOver = keysOf (snakeCoordinates wallOver)).
Proof.
  apply (C3_set_holds_body_keys_and_is_exact_while_not_over centreDraws
           wallOver).
  exact wallOver_reachable.
Defined.

(** The other operations keep the two in step: stopping by hand does. *)
Lemma stopGame_synced s : synced s → synced (stopGame s).
Proof. done. Qed.

(** ** C4 and C10: what a colliding tick leaves behind *)

(** C4 (counterexample). The colliding tick of the wall session leaves a
    body of nine cells where there were ten. *)
Lemma C4_not_atomic_counterexample :
  ¬ (∀ random fuel s s',
       reachable random s → phase s = Running →
       moveSnake random fuel s = Some s' → phase s' = GameOver →
       cellOf <$> snakeCoordinates s' = cellOf <$> snakeCoordinates s
       ∧ foodCoords s' = foodCoords s ∧ points s' = points s).
Proof.
  intros H.
  destruct (H centreDraws 1%nat wallSession wallOver wallSession_reachable)
    as (Hbody & _); try (vm_compute; reflexivity).
  apply (f_equal length) in Hbody. vm_compute in Hbody. discriminate.
Qed.

(** C4 (amended). A tick of a session that is not over, whose candidate
    head collides (wall or self), ends in GameOver with the direction and
    the occupied-set as before, the interval cancelled and the tick counter
    reset; the score and the food are as before when the pre-step head was
    off the food. The body array is not restored: it is left popped and
    shifted, that is the body of before without its tail cell. *)
Theorem C4_colliding_tick_leaves_shifted_body random fuel s l h :
  gameOver s = false →
  snakeCoordinates s = l ++ [h] →
  collisionCheck s (stepHead (direction s) h) = true →
  (cellOf h = cellOf (foodCoords s) → placeable random fuel s) →
  ∃ s', moveSnake random fuel s = Some s' ∧
    phase s' = GameOver ∧
    cellOf <$> snakeCoordinates s' = cellOf <$> tl (snakeCoordinates s) ∧
    snakeCoordinatesMap s' = snakeCoordinatesMap s ∧
    direction s' = direction s ∧
    timer s' = None ∧ isPlaying s' = 0 ∧
    (cellOf h ≠ cellOf (foodCoords s) →
     foodCoords s' = foodCoords s ∧ points s' = points s).
Proof.
  intros Hgo Hbody Hcol Hplace.
  destruct (moveSnake_spec random fuel s l h Hgo Hbody)
    as (s' & Hmove & Hover & Hdir & Hfood & Hrest).
  { intros Hon. by apply Hplace, onFood_cell. }
  rewrite Hcol in Hover, Hrest.
  destruct Hrest as (Hshift & Hmap & Htimer & Hplay).
  exists s'. split; [exact Hmove|].
  split; [by apply phase_GameOver|].
  split; [by rewrite Hshift, Hbody, shiftBody_cells|].
  repeat (split; [done|]).
  intros Hoff. destruct (onFood s h) eqn:Hon.
  - destruct Hoff. by apply onFood_cell.
  - by destruct Hfood as (? & ? & _).
Qed.

Lemma C4_colliding_tick_witness :
  ∃ s', moveSnake centreDraws 0 wallSession = Some s' ∧
    phase s' = GameOver ∧
    cellOf <$> snakeCoordinates s'
      = cellOf <$> tl (snakeCoordinates wallSession) ∧
    snakeCoordinatesMap s' = snakeCoordinatesMap wallSession ∧
    direction s' = direction wallSession ∧
    timer s' = None ∧ isPlaying s' = 0 ∧
    (cellOf (headAt 0 9) ≠ cellOf (foodCoords wallSession) →
     foodCoords s' = foodCoords wallSession ∧ points s' = points wallSession).
Proof.
  apply (C4_colliding_tick_leaves_shifted_body centreDraws 0 wallSession
           (removelast snakePositions) (headAt 0 9)).
  - reflexivity.
  - reflexivity.
  - vm_compute. reflexivity.
  - intros H. vm_compute in H. discriminate.
Defined.

(** C10. On a tick whose pre-step head is on the food cell and whose
    stepped candidate head collides (wall or self), given fuel for the
    placement, the score is raised by 10 and the food is moved to a newly
    drawn cell outside the occupied-set, and the session then goes to
    GameOver with the array popped and shifted and the candidate head not
    appended: the consumption is committed, the movement is not. *)
Theorem C10_consumption_committed_on_colliding_tick random fuel s l h :
  gameOver s = false →
  snakeCoordinates s = l ++ [h] →
  cellOf h = cellOf (foodCoords s) →
  collisionCheck s (stepHead (direction s) h) = true →
  placeable random fuel s →
  ∃ k s', attemptFree random s k ∧
    moveSnake random fuel s = Some s' ∧
    points s' = points s + 10 ∧
    foodCoords s' = sampleAt random (draws s + 2 * k) ∧
    (keyOf (foodCoords s') ∉ snakeCoordinatesMap s) ∧
    (synced s → cellOf (foodCoords s') ≠ cellOf (foodCoords s)) ∧
    phase s' = GameOver ∧
    snakeCoordinates s' = shiftBody h l.
Proof.
  intros Hgo Hbody Hcell Hcol Hplace.
  apply onFood_cell in Hcell as Hon.
  destruct (moveSnake_spec random fuel s l h Hgo Hbody)
    as (s' & Hmove & Hover & _ & Hfood & Hrest); [done|].
  rewrite Hcol in Hover, Hrest. rewrite Hon in Hfood.
  destruct Hfood as (Hpts & k & _ & Hfree & Hnew).
  destruct Hrest as (Hshift & _).
  exists k, s'. split; [exact Hfree|]. split; [exact Hmove|].
  split; [exact Hpts|]. split; [exact Hnew|].
  split; [by rewrite Hnew|].
  split; [|split; [by apply phase_GameOver | exact Hshift]].
  intros Hsync Heq. apply Hfree.
  rewrite Hnew in Heq. apply keyOf_cellOf in Heq. rewrite Heq.
  apply keyOf_cellOf in Hcell. rewrite <- Hcell, Hsync, Hbody.
  rewrite keysOf_snoc. apply elem_of_union_r. by apply elem_of_singleton.
Qed.

Lemma C10_consumption_committed_witness :
  ∃ k s', attemptFree cornerDraws cornerSession k ∧
    moveSnake cornerDraws 1 cornerSession = Some s' ∧
    points s' = points cornerSession + 10 ∧
    foodCoords s' = sampleAt cornerDraws (draws cornerSession + 2 * k) ∧
    (keyOf (foodCoords s') ∉ snakeCoordinatesMap cornerSession) ∧
    (synced cornerSession →
     cellOf (foodCoords s') ≠ cellOf (foodCoords cornerSession)) ∧
    phase s' = GameOver ∧
    snakeCoordinates s'
      = shiftBody (headAt 0 47) (removelast cornerBody).
Proof.
  apply (C10_consumption_committed_on_colliding_tick cornerDraws 1
           cornerSession (removelast cornerBody) (headAt 0 47)).
  - reflexivity.
  - reflexivity.
  - reflexivity.
  - vm_compute. reflexivity.
  - exists 0%nat. split; [lia|].
    apply (bool_decide_unpack _). vm_compute. exact I.
Defined.

(** ** C1: the set the collision check reads *)

Section TickOutcome.

Context (random : nat → unit01).

(** Whether a tick ends the game is the collision check on the candidate
    head against the occupied-set of the state the tick starts from. *)
Lemma moveSnake_outcome fuel s tail mid h s' :
  gameOver s = false →
  snakeCoordinates s = tail :: mid ++ [h] →
  moveSnake random fuel s = Some s' →
  gameOver s' = collisionCheck s (stepHead (direction s) h).
Proof.
  intros Hgo Hbody Hmove.
  rewrite (moveSnake_body _ _ _ _ _ _ Hgo Hbody) in Hmove.
  destruct (onFood s h).
  - destruct (populateFoodBall random fuel _) as [s1|] eqn:Hpop;
      [|discriminate].
    apply populateFoodBall_spec in Hpop as (k & _ & _ & _ & ->).
    simpl in Hmove. injection Hmove as <-.
    rewrite (collisionCheck_map _ s) by done.
    by destruct (collisionCheck s _).
  - simpl in Hmove. injection Hmove as <-.
    rewrite (collisionCheck_map _ s) by done.
    by destruct (collisionCheck s _).
Qed.

(** A tick returns for any fuel when the pre-step head is off the food,
    and for fuel that reaches a free attempt when it is on it. *)
Lemma moveSnake_total fuel s tail mid h :
  gameOver s = false →
  snakeCoordinates s = tail :: mid ++ [h] →
  (cellOf h = cellOf (foodCoords s) → placeable random fuel s) →
  is_Some (moveSnake random fuel s).
Proof.
  intros Hgo Hbody Hplace.
  destruct (onFood s h) eqn:Hfood.
  - destruct (moveSnake_food random fuel s tail mid h Hgo Hbody Hfood)
      as (k & _ & _ & ->); [by apply Hplace, onFood_cell | done].
  - rewrite (moveSnake_body _ _ _ _ _ _ Hgo Hbody), Hfood. done.
Qed.

End TickOutcome.

(** C1 (counterexample). In the loop session the candidate head (0, 5) is
    the cell the tail is leaving: it is in bounds and not in the shifted
    body, yet the tick ends the game. *)
Lemma C1_vacated_tail_cell_counterexample :
  ¬ (∀ random fuel s s' tail mid h,
       reachable random s → phase s = Running →
       snakeCoordinates s = tail :: mid ++ [h] →
       moveSnake random fuel s = Some s' →
       (phase s' = GameOver ↔
        ¬ inBounds (stepHead (direction s) h)
        ∨ keyOf (stepHead (direction s) h)
            ∈ keysOf (shiftBody h (tail :: mid)))).
Proof.
  intros H.
  pose (mid := removelast (tl loopBody)).
  destruct (H centreDraws 1%nat loopSession
              (stopGame (afterShift loopSession mid (headAt 1 5)))
              (segment 0 5) mid (headAt 1 5)
              loopSession_reachable eq_refl eq_refl) as [Hfwd _].
  { vm_compute. reflexivity. }
  destruct (Hfwd eq_refl) as [Hout|Hin].
  - apply Hout. unfold inBounds, ROWS, COLS. simpl. lia.
  - revert Hin. apply (bool_decide_unpack _). vm_compute. exact I.
Qed.

(** C1 (amended). For every tick in the Running phase of a reachable
    session the collision test on the candidate head reads the
    occupied-set as the previous tick left it: the candidate collides
    exactly when it is out of bounds or its cell is a cell of the body as
    it was before the tick, before the shift and before the append. That
    body still contains the tail cell, so a candidate head that steps onto
    the cell the tail is leaving is reported as a collision. *)
Theorem C1_collision_test_reads_pre_tick_body random s :
  reachable random s → phase s = Running →
  ∃ tail mid h, snakeCoordinates s = tail :: mid ++ [h] ∧
    let candidate := stepHead (direction s) h in
    (collisionCheck s candidate = true ↔
     ¬ inBounds candidate
     ∨ cellOf candidate ∈ cellOf <$> snakeCoordinates s) ∧
    (∀ fuel s', moveSnake random fuel s = Some s' →
       (phase s' = GameOver ↔ collisionCheck s candidate = true)) ∧
    (∀ fuel, (cellOf h = cellOf (foodCoords s) → placeable random fuel s) →
       is_Some (moveSnake random fuel s)) ∧
    (cellOf candidate = cellOf tail →
     ∀ fuel s', moveSnake random fuel s = Some s' → phase s' = GameOver).
Proof.
  intros Hreach Hrun. apply phase_Running in Hrun as Hgo.
  destruct (reachable_running random s Hreach Hgo)
    as ((_ & _ & Hlen & _) & Hsync).
  destruct (body_split _ (Hlen Hgo)) as (tail & mid & h & Hbody).
  exists tail, mid, h. split; [exact Hbody|]. cbv zeta.
  assert (collisionCheck s (stepHead (direction s) h) = true ↔
          ¬ inBounds (stepHead (direction s) h)
          ∨ cellOf (stepHead (direction s) h)
              ∈ cellOf <$> snakeCoordinates s) as Hcheck.
  { rewrite collisionCheck_true, Hsync, keyOf_elem_cells. done. }
  assert (∀ fuel s', moveSnake random fuel s = Some s' →
            (phase s' = GameOver ↔
             collisionCheck s (stepHead (direction s) h) = true)) as Hout.
  { intros fuel s' Hmove. rewrite phase_GameOver.
    by rewrite (moveSnake_outcome random fuel s tail mid h s'). }
  split; [exact Hcheck|]. split; [exact Hout|]. split.
  - intros fuel Hplace. by eapply moveSnake_total.
  - intros Htail fuel s' Hmove. apply (Hout fuel s' Hmove), Hcheck.
    right. rewrite Htail, Hbody, fmap_cons. by left.
Qed.

Lemma C1_collision_test_witness :
  ∃ tail mid h, snakeCoordinates loopSession = tail :: mid ++ [h] ∧
    let candidate := stepHead (direction loopSession) h in
    (collisionCheck loopSession candidate = true ↔
     ¬ inBounds candidate
     ∨ cellOf candidate ∈ cellOf <$> snakeCoordinates loopSession) ∧
    (∀ fuel s', moveSnake centreDraws fuel loopSession = Some s' →
       (phase s' = GameOver ↔ collisionCheck loopSession candidate = true)) ∧
    (∀ fuel, (cellOf h = cellOf (foodCoords loopSession) →
              placeable centreDraws fuel loopSession) →
       is_Some (moveSnake centreDraws fuel loopSession)) ∧
    (cellOf candidate = cellOf tail →
     ∀ fuel s', moveSnake centreDraws fuel loopSession = Some s' →
                phase s' = GameOver).
Proof.
  apply (C1_collision_test_reads_pre_tick_body centreDraws loopSession).
  - exact loopSession_reachable.
  - reflexivity.
Defined.

(** ** C5: the food check reads the head before the step *)

(** C5. On every tick of a session that is not over, food consumption is
    decided by comparing the head cell before the direction step with the
    food cell, not the stepped head. A head that is off the food before the
    step consumes nothing, even when the step lands on the food; a head that
    is on the food before the step consumes it. So a head that steps onto
    the food without colliding consumes it on the following tick. *)
Theorem C5_food_check_reads_pre_move_head random fuel s l h :
  gameOver s = false →
  snakeCoordinates s = l ++ [h] →
  let candidate := stepHead (direction s) h in
  (cellOf h ≠ cellOf (foodCoords s) →
   ∃ s1, moveSnake random fuel s = Some s1 ∧
     points s1 = points s ∧ foodCoords s1 = foodCoords s ∧
     (cellOf candidate = cellOf (foodCoords s) →
      collisionCheck s candidate = false →
      placeable random fuel s1 →
      last (snakeCoordinates s1) = Some candidate ∧
      ∃ s2, moveSnake random fuel s1 = Some s2 ∧
            points s2 = points s + 10))
  ∧ (cellOf h = cellOf (foodCoords s) →
     placeable random fuel s →
     ∃ s1, moveSnake random fuel s = Some s1 ∧
       points s1 = points s + 10 ∧
       keyOf (foodCoords s1) ∉ snakeCoordinatesMap s).
Proof.
  intros Hgo Hbody candidate. split.
  - intros Hoff.
    assert (onFood s h = false) as Hon.
    { apply not_true_is_false. by rewrite onFood_cell. }
    destruct (moveSnake_spec random fuel s l h Hgo Hbody)
      as (s1 & Hmove & Hover & Hdir & Hfood & Hrest); [by rewrite Hon|].
    rewrite Hon in Hfood, Hrest. destruct Hfood as (Hpts & Hsame & _).
    exists s1. split; [exact Hmove|]. split; [exact Hpts|].
    split; [exact Hsame|]. intros Hland Hcol Hplace.
    fold candidate in Hover, Hrest. rewrite Hcol in Hover, Hrest.
    destruct Hrest as (Hbody1 & _). rewrite app_nil_l in Hbody1.
    split; [by rewrite Hbody1, last_snoc|].
    assert (onFood s1 candidate = true) as Hon1.
    { apply onFood_cell. by rewrite Hsame. }
    destruct (moveSnake_spec random fuel s1 _ candidate Hover Hbody1)
      as (s2 & Hmove2 & _ & _ & Hfood2 & _); [done|].
    rewrite Hon1 in Hfood2. destruct Hfood2 as (Hpts2 & _).
    exists s2. split; [exact Hmove2|]. by rewrite Hpts2, Hpts.
  - intros Hcell Hplace. apply onFood_cell in Hcell as Hon.
    destruct (moveSnake_spec random fuel s l h Hgo Hbody)
      as (s1 & Hmove & _ & _ & Hfood & _); [done|].
    rewrite Hon in Hfood. destruct Hfood as (Hpts & k & _ & Hfree & Hnew).
    exists s1. split; [exact Hmove|]. split; [exact Hpts|].
    by rewrite Hnew.
Qed.

Lemma C5_food_check_witness :
  gameOver aheadSession = false ∧
  cellOf (headAt 0 9) ≠ cellOf (foodCoords aheadSession) ∧
  cellOf (stepHead RIGHT (headAt 0 9)) = cellOf (foodCoords aheadSession) ∧
  ∃ s1 s2, moveSnake growDraws 1 aheadSession = Some s1 ∧
           points s1 = 0 ∧ foodCoords s1 = foodCoords aheadSession ∧
           moveSnake growDraws 1 s1 = Some s2 ∧ points s2 = 10.
Proof.
  assert (cellOf (headAt 0 9) ≠ cellOf (foodCoords aheadSession)) as Hoff
    by discriminate.
  split; [reflexivity|]. split; [exact Hoff|]. split; [reflexivity|].
  destruct (C5_food_check_reads_pre_move_head growDraws 1 aheadSession
              (removelast snakePositions) (headAt 0 9)
              eq_refl eq_refl) as [Hfirst _].
  destruct (Hfirst Hoff) as (s1 & Hmove & Hpts & Hfood & Hnext).
  assert (moveSnake growDraws 1 aheadSession = Some onFoodSession) as Heval
    by (vm_compute; reflexivity).
  rewrite Heval in Hmove. injection Hmove as <-.
  destruct Hnext as (_ & s2 & Hmove2 & Hpts2).
  - reflexivity.
  - vm_compute. reflexivity.
  - exists 0%nat. split; [lia|].
    apply (bool_decide_unpack _). vm_compute. exact I.
  - exists onFoodSession, s2. repeat split; done.
Defined.

(** ** C2: growth *)

(** The part of the growth law the code keeps: on a tick whose pre-step
    head is on the food and whose candidate head is free, with fuel for the
    placement, the body gains one cell (the old tail cell stays in front),
    the score rises by 10, and the food moves to a drawn cell that is
    outside the occupied-set of before the tick, hence off the old food
    cell. The occupied-set of before the tick does not hold the candidate
    head, so nothing keeps the new food off the new head. *)
Lemma growth_tick random fuel s tail mid h :
  gameOver s = false →
  snakeCoordinates s = tail :: mid ++ [h] →
  synced s →
  cellOf h = cellOf (foodCoords s) →
  collisionCheck s (stepHead (direction s) h) = false →
  placeable random fuel s →
  ∃ k s', attemptFree random s k ∧
    moveSnake random fuel s = Some s' ∧
    snakeCoordinates s'
      = tail :: (mid ++ [headCopy h]) ++ [stepHead (direction s) h] ∧
    length (snakeCoordinates s') = S (length (snakeCoordinates s)) ∧
    points s' = points s + 10 ∧
    foodCoords s' = sampleAt random (draws s + 2 * k) ∧
    (cellOf (foodCoords s') ∉ cellOf <$> snakeCoordinates s) ∧
    cellOf (foodCoords s') ≠ cellOf (foodCoords s) ∧
    (cellOf (foodCoords s') ∈ cellOf <$> snakeCoordinates s' ↔
     cellOf (foodCoords s') = cellOf (stepHead (direction s) h)).
Proof.
  intros Hgo Hbody Hsync Hcell Hcol Hplace.
  apply onFood_cell in Hcell as Hfood.
  destruct (moveSnake_food random fuel s tail mid h Hgo Hbody Hfood Hplace)
    as (k & _ & Hfree & Hmove).
  simpl in Hmove. rewrite Hcol in Hmove.
  assert (cellOf (sampleAt random (draws s + 2 * k))
            ∉ cellOf <$> snakeCoordinates s) as Hout.
  { rewrite <- keyOf_elem_cells, <- Hsync. exact Hfree. }
  eexists k, _. split; [exact Hfree|]. split; [exact Hmove|]. fields.
  split; [done|]. split.
  { rewrite Hbody. simpl. rewrite !length_app. simpl. lia. }
  split; [done|]. split; [done|]. split; [exact Hout|]. split.
  - intros Heq. apply Hout. rewrite Heq, <- Hcell, Hbody.
    rewrite fmap_cons, fmap_app, elem_of_cons, elem_of_app. simpl.
    rewrite list_elem_of_singleton. tauto.
  - rewrite Hbody in Hout. revert Hout.
    rewrite !fmap_cons, !fmap_app. simpl.
    rewrite !elem_of_cons, !elem_of_app, !list_elem_of_singleton.
    rewrite cellOf_headCopy. tauto.
Qed.

(** C2 (the code at the failing input). From the reachable session whose
    head stands on the food at (0, 10), heading right, with the next
    placement drawing (0, 11): the tick does not collide, the body grows
    from ten cells to eleven and the score rises by 10, but the new food
    cell (0, 11) is the cell of the new head, a member of the body after
    the tick. *)
Theorem C2_new_food_lands_on_new_head :
  reachable growDraws onFoodSession ∧
  phase onFoodSession = Running ∧
  (cellOf <$> last (snakeCoordinates onFoodSession))
    = Some (cellOf (foodCoords onFoodSession)) ∧
  moveSnake growDraws 1 onFoodSession = Some grownSession ∧
  phase grownSession = Running ∧
  length (snakeCoordinates grownSession)
    = S (length (snakeCoordinates onFoodSession)) ∧
  points grownSession = points onFoodSession + 10 ∧
  cellOf (foodCoords grownSession) = (0, 11) ∧
  (cellOf <$> last (snakeCoordinates grownSession)) = Some (0, 11) ∧
  cellOf (foodCoords grownSession)
    ∈ cellOf <$> snakeCoordinates grownSession.
Proof.
  split; [exact onFoodSession_reachable|].
  split; [reflexivity|]. split; [reflexivity|].
  split; [vm_compute; reflexivity|].
  split; [reflexivity|]. split; [reflexivity|]. split; [reflexivity|].
  split; [reflexivity|]. split; [reflexivity|].
  apply (bool_decide_unpack _). vm_compute. exact I.
Qed.

(** ** C9: food placement *)

(** Whatever the source, a returned placement is in bounds and free. *)
Lemma populateFoodBall_sound random fuel s s' :
  populateFoodBall random fuel s = Some s' →
  inBounds (foodCoords s') ∧
  (keyOf (foodCoords s') ∉ snakeCoordinatesMap s) ∧
  snakeCoordinatesMap s' = snakeCoordinatesMap s.
Proof.
  intros Hpop. apply populateFoodBall_spec in Hpop as (k & _ & Hfree & _ & ->).
  fields. split; [apply sampleAt_inBounds | done].
Qed.

(** The degenerate case: on a fully occupied grid no fuel suffices,
    whatever the source draws. *)
Lemma populateFoodBall_full_grid random fuel s :
  (∀ c, inBounds c → keyOf c ∈ snakeCoordinatesMap s) →
  populateFoodBall random fuel s = None.
Proof.
  intros Hfull. apply populateFoodBall_starved.
  intros k Hfree. apply Hfree, Hfull, sampleAt_inBounds.
Qed.






(** With this source the first ten attempts land on the snake and the
    eleventh places the food at (0, 10). *)
Example gridDraws_first_placement :
  populateFoodBall gridDraws 10 freshSession = None ∧
  (cellOf ∘ foodCoords <$> populateFoodBall gridDraws 11 freshSession)
    = Some (0, 10).
Proof. split; vm_compute; reflexivity. Qed.

(** * Further properties of the code *)

(** ** Keys and food placement *)

(** X1. The key [`${row}:${col}`] of the occupied-set is collision-free on
    all integer pairs: two keys are the same string exactly when the rows
    and the columns are the same. *)
Theorem X1_cell_keys_are_collision_free (r1 c1 r2 c2 : Z) :
  coordsKey r1 c1 = coordsKey r2 c2 ↔ r1 = r2 ∧ c1 = c2.
Proof.
  split; [apply coordsKey_inj | by intros [-> ->]].
Qed.

Lemma state_eq s1 s2 :
  timer s1 = timer s2 → snakeCoordinates s1 = snakeCoordinates s2 →
  direction s1 = direction s2 →
  snakeCoordinatesMap s1 = snakeCoordinatesMap s2 →
  foodCoords s1 = foodCoords s2 → points s1 = points s2 →
  gameOver s1 = gameOver s2 → isPlaying s1 = isPlaying s2 →
  draws s1 = draws s2 → s1 = s2.
Proof. destruct s1, s2. simpl. by intros -> -> -> -> -> -> -> -> ->. Qed.

(** X2. [populateFoodBall] returns exactly when one of the first [fuel]
    attempts draws a cell outside the occupied-set. It then puts the food
    on the first such cell, has consumed two draws for it and for every
    rejected attempt before it, and has changed nothing else: not the
    body, the occupied-set, the direction, the score, the phase flags or
    the interval handle. *)
Theorem X2_populateFoodBall_places_first_free_draw random fuel s s' :
  populateFoodBall random fuel s = Some s' ↔
  ∃ k, (k < fuel)%nat ∧
    (keyOf (sampleAt random (draws s + 2 * k)) ∉ snakeCoordinatesMap s) ∧
    (∀ j, (j < k)%nat →
       keyOf (sampleAt random (draws s + 2 * j)) ∈ snakeCoordinatesMap s) ∧
    foodCoords s' = sampleAt random (draws s + 2 * k) ∧
    draws s' = (draws s + 2 * k + 2)%nat ∧
    snakeCoordinates s' = snakeCoordinates s ∧
    snakeCoordinatesMap s' = snakeCoordinatesMap s ∧
    direction s' = direction s ∧ points s' = points s ∧
    gameOver s' = gameOver s ∧ isPlaying s' = isPlaying s ∧
    timer s' = timer s.
Proof.
  rewrite populateFoodBall_spec. split.
  - intros (k & Hk & Hfree & Hmin & ->). exists k. fields.
    split; [done|]. split; [exact Hfree|]. split; [|done].
    intros j Hj. specialize (Hmin j Hj). unfold attemptFree in Hmin.
    by apply dec_stable.
  - intros (k & Hk & Hfree & Hmin & Hfood & Hdraws & ? & ? & ? & ? & ? & ? & ?).
    exists k. split; [done|]. split; [exact Hfree|]. split.
    + intros j Hj Hjfree. by apply Hjfree, Hmin.
    + apply state_eq; fields; done.
Qed.

Lemma elem_of_gridCells (r c : Z) :
  (r, c) ∈ gridCells ↔ 0 <= r < ROWS ∧ 0 <= c < COLS.
Proof.
  unfold gridCells, ROWS, COLS. rewrite list_elem_of_bind. split.
  - intros (i & Hin & Hi). apply list_elem_of_fmap in Hin as (j & [= -> ->] & Hj).
    apply elem_of_seq in Hi, Hj. lia.
  - intros [Hr Hc]. exists (Z.to_nat r). split.
    + apply list_elem_of_fmap. exists (Z.to_nat c). split.
      * f_equal; lia.
      * apply elem_of_seq. lia.
    + apply elem_of_seq. lia.
Qed.

Lemma fullGridSession_full c :
  inBounds c → keyOf c ∈ snakeCoordinatesMap fullGridSession.
Proof.
  intros Hin. unfold fullGridSession. fields.
  apply elem_of_list_to_set, list_elem_of_fmap.
  exists (row c, col c). split; [done|]. by apply elem_of_gridCells.
Qed.

(** X3. When the occupied-set holds the key of every cell of the grid,
    [populateFoodBall] has no result for any fuel and any random source:
    every attempt is rejected. *)
Theorem X3_populateFoodBall_never_returns_on_full_grid random s :
  (∀ c, 0 <= row c < ROWS ∧ 0 <= col c < COLS →
        keyOf c ∈ snakeCoordinatesMap s) →
  ∀ fuel, populateFoodBall random fuel s = None.
Proof.
  intros Hfull fuel. apply populateFoodBall_starved.
  intros k Hfree. apply Hfree, Hfull, sampleAt_inBounds.
Qed.

Lemma X3_populateFoodBall_full_grid_witness :
  populateFoodBall gridDraws 3000 fullGridSession = None.
Proof.
  apply (X3_populateFoodBall_never_returns_on_full_grid gridDraws
           fullGridSession).
  exact fullGridSession_full.
Defined.

(** ** Lifecycle *)

Lemma snakePositions_cells :
  cellOf <$> snakePositions
  = [(0, 0); (0, 1); (0, 2); (0, 3); (0, 4);
     (0, 5); (0, 6); (0, 7); (0, 8); (0, 9)].
Proof. reflexivity. Qed.

(** X4. [resetGame], from any session and with fuel for the placement,
    gives the default game: the body is the ten cells of row 0 from column
    0 to the head at column 9, the direction is RIGHT, the score is 0, the
    game is not over, the occupied-set holds exactly the keys of the body,
    and the food is in bounds on a cell off the body. It leaves the
    interval handle and the tick counter as they were. *)
Theorem X4_resetGame_gives_default_game random fuel s :
  (∃ k, (k < fuel)%nat ∧
        keyOf (sampleAt random (draws s + 2 * k)) ∉ keysOf snakePositions) →
  ∃ s', resetGame random fuel s = Some s' ∧
    cellOf <$> snakeCoordinates s'
      = [(0, 0); (0, 1); (0, 2); (0, 3); (0, 4);
         (0, 5); (0, 6); (0, 7); (0, 8); (0, 9)] ∧
    last (snakeCoordinates s') = Some (headAt 0 9) ∧
    direction s' = RIGHT ∧ points s' = 0 ∧ gameOver s' = false ∧
    snakeCoordinatesMap s' = keysOf (snakeCoordinates s') ∧
    (0 <= row (foodCoords s') < ROWS ∧ 0 <= col (foodCoords s') < COLS) ∧
    (cellOf (foodCoords s') ∉ cellOf <$> snakeCoordinates s') ∧
    timer s' = timer s ∧ isPlaying s' = isPlaying s.
Proof.
  intros Hplace. unfold resetGame.
  destruct (populateFoodBall_placeable random fuel
              (syncSnakeCoordinatesMap
                 (set_points 0 (set_gameOver false (set_direction RIGHT
                    (set_snakeCoordinates snakePositions s))))))
    as (k & Hk & Hfree & ->); [exact Hplace|].
  eexists. split; [reflexivity|]. fields.
  split; [exact snakePositions_cells|].
  repeat (split; [done|]).
  split; [apply sampleAt_inBounds|].
  split; [|done]. rewrite <- keyOf_elem_cells. exact Hfree.
Qed.

Lemma X4_resetGame_witness :
  ∃ s', resetGame centreDraws 1 wallOver = Some s' ∧
    cellOf <$> snakeCoordinates s'
      = [(0, 0); (0, 1); (0, 2); (0, 3); (0, 4);
         (0, 5); (0, 6); (0, 7); (0, 8); (0, 9)] ∧
    last (snakeCoordinates s') = Some (headAt 0 9) ∧
    direction s' = RIGHT ∧ points s' = 0 ∧ gameOver s' = false ∧
    snakeCoordinatesMap s' = keysOf (snakeCoordinates s') ∧
    (0 <= row (foodCoords s') < ROWS ∧ 0 <= col (foodCoords s') < COLS) ∧
    (cellOf (foodCoords s') ∉ cellOf <$> snakeCoordinates s') ∧
    timer s' = timer wallOver ∧ isPlaying s' = isPlaying wallOver.
Proof.
  apply (X4_resetGame_gives_default_game centreDraws 1 wallOver).
  exists 0%nat. split; [lia|].
  apply (bool_decide_unpack _). vm_compute. exact I.
Defined.


(** X6. [startGame] always ends in the Running phase with the new
    interval handle. On a session that is not over it changes nothing
    else. On a session that is over, as after [stopGame] or a collision,
    it does not resume: given fuel for the placement it starts the default
    game, with score 0, the default body, direction RIGHT and new food
    off the body. *)
Theorem X6_startGame_runs_and_resets_only_when_over
    random fuel interval s :
  (gameOver s = true →
   ∃ k, (k < fuel)%nat ∧
        keyOf (sampleAt random (draws s + 2 * k)) ∉ keysOf snakePositions) →
  ∃ s', startGame random fuel interval s = Some s' ∧
    phase s' = Running ∧ timer s' = Some interval ∧
    isPlaying s' = isPlaying s ∧
    (gameOver s = false → s' = set_timer (Some interval) s) ∧
    (gameOver s = true →
     snakeCoordinates s' = snakePositions ∧ direction s' = RIGHT ∧
     points s' = 0 ∧
     snakeCoordinatesMap s' = keysOf snakePositions ∧
     cellOf (foodCoords s') ∉ cellOf <$> snakePositions).
Proof.
  intros Hplace. unfold startGame.
  destruct (gameOver s) eqn:Hgo.
  - unfold resetGame.
    destruct (populateFoodBall_placeable random fuel
                (syncSnakeCoordinatesMap
                   (set_points 0 (set_gameOver false (set_direction RIGHT
                      (set_snakeCoordinates snakePositions s))))))
      as (k & Hk & Hfree & ->); [by apply Hplace|].
    eexists. split; [reflexivity|]. unfold phase. fields.
    do 4 (split; [done|]). intros _.
    do 4 (split; [done|]).
    rewrite <- keyOf_elem_cells. exact Hfree.
  - eexists. split; [reflexivity|]. unfold phase. fields. rewrite Hgo.
    repeat (split; [done|]). done.
Qed.

Lemma X6_startGame_witness :
  ∃ s', startGame growDraws 1 7 (stopGame grownSession) = Some s' ∧
    phase s' = Running ∧ points s' = 0 ∧
    snakeCoordinates s' = snakePositions.
Proof.
  destruct (X6_startGame_runs_and_resets_only_when_over growDraws 1 7
              (stopGame grownSession))
    as (s' & Hstart & Hphase & _ & _ & _ & Hover).
  - intros _. exists 0%nat. split; [lia|].
    apply (bool_decide_unpack _). vm_compute. exact I.
  - destruct (Hover eq_refl) as (Hbody & _ & Hpts & _).
    exists s'. repeat split; done.
Defined.

(** ** Key presses *)

Lemma set_direction_same s : set_direction (direction s) s = s.
Proof. by destruct s. Qed.

(** X7. A key press changes nothing but the direction, in every phase,
    GameOver included; a key that is not one of the four arrows changes
    nothing at all. *)
Theorem X7_key_press_touches_only_the_direction (key : string) (s : State) :
  (∃ d, handleDirectionChange key s = set_direction d s) ∧
  (key ≠ "ArrowUp" → key ≠ "ArrowDown" → key ≠ "ArrowRight" →
   key ≠ "ArrowLeft" → handleDirectionChange key s = s).
Proof.
  split.
  - unfold handleDirectionChange. destruct (_ || _).
    + exists (direction s). by rewrite set_direction_same.
    + by eexists.
  - intros. unfold handleDirectionChange, getNewDirection.
    rewrite !decide_False by done.
    destruct (_ || _); [done|]. apply set_direction_same.
Qed.

Lemma handleDirectionChange_arrow r s :
  handleDirectionChange (arrowKey r) s
  = if opposite (direction s) r then s else set_direction r s.
Proof.
  unfold handleDirectionChange, getNewDirection.
  destruct s as [t b d m f p g i n]; fields.
  destruct d, r; reflexivity.
Qed.

(** X8. The reversal guard compares a request with the direction last
    committed, not with the direction of the last move: a press of a
    perpendicular arrow followed by a press of the opposite arrow commits
    the opposite direction. When the head came from its neck cell in the
    old direction, the next tick then steps back onto the neck and ends
    the game. *)
Theorem X8_two_presses_reverse_into_the_neck random fuel s p l n h :
  p ≠ direction s → p ≠ oppositeOf (direction s) →
  gameOver s = false →
  snakeCoordinates s = l ++ [n; h] →
  snakeCoordinatesMap s = keysOf (snakeCoordinates s) →
  cellOf h = cellOf (stepHead (direction s) n) →
  (cellOf h = cellOf (foodCoords s) → placeable random fuel s) →
  let turned := handleDirectionChange (arrowKey (oppositeOf (direction s)))
                  (handleDirectionChange (arrowKey p) s) in
  direction turned = oppositeOf (direction s) ∧
  ∃ s', moveSnake random fuel turned = Some s' ∧ phase s' = GameOver.
Proof.
  intros Hp Hq Hgo Hbody Hsync Hneck Hplace turned.
  assert (turned = set_direction (oppositeOf (direction s)) s) as ->.
  { subst turned. rewrite (handleDirectionChange_arrow p s).
    destruct (opposite (direction s) p) eqn:Hop.
    { destruct (direction s), p; simpl in *; congruence. }
    rewrite handleDirectionChange_arrow. fields.
    destruct (opposite p (oppositeOf (direction s))) eqn:Hop'; [|done].
    destruct (direction s), p; simpl in *; congruence. }
  split; [done|].
  set (s1 := set_direction (oppositeOf (direction s)) s).
  destruct (moveSnake_spec random fuel s1 (l ++ [n]) h)
    as (s' & Hmove & Hover & _); try done.
  { subst s1. fields. by rewrite Hbody, <- app_assoc. }
  { intros Hon. apply Hplace. by apply (onFood_cell s1). }
  exists s'. split; [exact Hmove|]. apply phase_GameOver.
  rewrite Hover. apply collisionCheck_true. right.
  subst s1. fields. rewrite Hsync, Hbody, keyOf_elem_cells.
  assert (cellOf (stepHead (oppositeOf (direction s)) h) = cellOf n) as ->.
  { destruct h as [hr hc hf], n as [nr nc nf].
    unfold cellOf in *. simpl in *.
    destruct (direction s); simpl in *; simplify_eq; f_equal; lia. }
  rewrite fmap_app, elem_of_app. right. simpl. by left.
Qed.

Lemma X8_two_presses_witness :
  direction (handleDirectionChange "ArrowLeft"
               (handleDirectionChange "ArrowUp" aheadSession)) = LEFT ∧
  ∃ s', moveSnake growDraws 0
          (handleDirectionChange "ArrowLeft"
             (handleDirectionChange "ArrowUp" aheadSession)) = Some s' ∧
        phase s' = GameOver.
Proof.
  apply (X8_two_presses_reverse_into_the_neck growDraws 0 aheadSession UP
           (removelast (removelast snakePositions))
           (segment 0 8) (headAt 0 9)).
  - discriminate.
  - discriminate.
  - reflexivity.
  - reflexivity.
  - reflexivity.
  - reflexivity.
  - intros H. vm_compute in H. discriminate.
Defined.

(** ** Invariants of reachable sessions *)

(** X9. In every reachable session the score is ten times a number of
    foods eaten, so it is never negative; and while the game is not over
    the body has the ten default cells plus one cell per food eaten. *)
Theorem X9_score_counts_growth random s :
  reachable random s →
  ∃ eaten : nat,
    points s = 10 * Z.of_nat eaten ∧
    (gameOver s = false →
     length (snakeCoordinates s) = (DEFAULT_LENGTH + eaten)%nat).
Proof.
  revert s. apply reachable_invariant.
  - intros fuel s Hinit. apply initEffect_Some in Hinit
      as (Hbody & _ & _ & Hpts & _).
    exists 0%nat. rewrite Hbody, Hpts. done.
  - intros fuel op p p' Hsound (eaten & Hpts & Hlen) Hrun.
    destruct (run_effect random fuel op p p' Hsound Hrun)
      as [(Hbody & _ & _ & Hpts' & _)
         |[(Hbody & _ & _ & Hpts' & Hover)
          |(_ & l & h & Hbody & Hmove & _)]].
    + exists 0%nat. rewrite Hbody, Hpts'. done.
    + exists eaten. rewrite Hbody, Hpts'. split; [done|].
      intros Hgo'. apply Hlen. destruct Hover; congruence.
    + destruct (moveSnakeBody_Some random _ fuel (refs p) l h (refs p')
                  Hbody Hmove) as (Hover & _ & Hfood & Hrest).
      exists (if onFood (refs p) h then S eaten else eaten). split.
      { destruct (onFood (refs p) h); destruct Hfood as (-> & _); lia. }
      intros Hgo'. rewrite Hgo' in Hover. symmetry in Hover.
      apply orb_false_elim in Hover as [Hgo Hcol].
      rewrite Hcol in Hrest. destruct Hrest as (-> & _).
      specialize (Hlen Hgo). rewrite Hbody, length_app in Hlen.
      unfold DEFAULT_LENGTH in *. simpl in Hlen.
      rewrite !length_app, length_shiftBody.
      destruct (onFood (refs p) h); simpl; lia.
Qed.

Lemma X9_score_counts_growth_witness :
  ∃ eaten : nat,
    points grownSession = 10 * Z.of_nat eaten ∧
    (gameOver grownSession = false →
     length (snakeCoordinates grownSession) = (DEFAULT_LENGTH + eaten)%nat).
Proof.
  apply (X9_score_counts_growth growDraws grownSession).
  exact grownSession_reachable.
Defined.

Lemma elem_of_tl {A} (x : A) (l : list A) : x ∈ tl l → x ∈ l.
Proof. destruct l; [done|]. simpl. by right. Qed.

Lemma elem_of_fmap_tl {A B} (f : A → B) (y : B) (l : list A) :
  y ∈ f <$> tl l → y ∈ f <$> l.
Proof. destruct l; [done|]. simpl. by right. Qed.

(** X10. In every reachable session the food cell is in bounds, and the
    only cell of the snake it can lie on is the head cell: the food is
    never under any other segment. *)
Theorem X10_food_in_bounds_and_at_most_under_head random s :
  reachable random s →
  (0 <= row (foodCoords s) < ROWS ∧ 0 <= col (foodCoords s) < COLS) ∧
  (cellOf (foodCoords s) ∈ cellOf <$> snakeCoordinates s →
   cellOf <$> last (snakeCoordinates s) = Some (cellOf (foodCoords s))).
Proof.
  revert s. apply reachable_invariant.
  - intros fuel s Hinit. apply initEffect_Some in Hinit
      as (Hbody & _ & _ & _ & _ & _ & _ & Hin & Hoff).
    split; [exact Hin|]. rewrite Hbody. intros Hon. by destruct Hoff.
  - intros fuel op p p' Hsound (Hin & Hunder) Hrun.
    destruct (run_effect random fuel op p p' Hsound Hrun)
      as [(Hbody & _ & _ & _ & _ & Hin' & Hoff)
         |[(Hbody & _ & Hfood & _)
          |(_ & l & h & Hbody & Hmove & _)]].
    + split; [exact Hin'|]. rewrite Hbody. intros Hon. by destruct Hoff.
    + by rewrite Hbody, Hfood.
    + destruct (moveSnakeBody_Some random _ fuel (refs p) l h (refs p')
                  Hbody Hmove) as (_ & _ & Hfood & Hrest).
      destruct Hsound as (Hsub & _).
      rewrite Hbody in Hunder, Hsub.
      rewrite last_snoc in Hunder. simpl in Hunder.
      assert (inBounds (foodCoords (refs p')) ∧
              cellOf (foodCoords (refs p')) ∉ cellOf <$> l ++ [h])
        as [Hin' Hoff].
      { destruct (onFood (refs p) h) eqn:Hon.
        - destruct Hfood as (_ & k & _ & Hfree & ->).
          split; [apply sampleAt_inBounds|].
          unfold attemptFree in Hfree. intros Hmem.
          apply Hfree, Hsub. by apply keyOf_elem_cells.
        - destruct Hfood as (_ & -> & _). split; [exact Hin|].
          intros Hmem. specialize (Hunder Hmem).
          assert (cellOf h = cellOf (foodCoords (refs p))) as Hcell
            by congruence.
          apply onFood_cell in Hcell. congruence. }
      split; [exact Hin'|]. intros Hmem.
      destruct (collisionCheck (refs p) _).
      * destruct Hrest as (Hshift & _).
        rewrite Hshift, shiftBody_cells in Hmem.
        exfalso. by apply Hoff, elem_of_fmap_tl.
      * destruct Hrest as (Hnew & _). rewrite Hnew in Hmem |- *.
        rewrite !app_assoc, last_snoc. simpl. f_equal.
        rewrite !fmap_app in Hmem.
        apply elem_of_app in Hmem as [Hmem|Hmem];
          [|apply elem_of_app in Hmem as [Hmem|Hmem]].
        -- destruct (onFood (refs p) h); [|by apply elem_of_nil in Hmem].
           apply list_elem_of_singleton in Hmem.
           destruct (tailIsHead p); [by symmetry|].
           destruct l as [|t l]; [by symmetry|].
           exfalso. apply Hoff. rewrite Hmem. simpl. by left.
        -- exfalso. rewrite shiftBody_cells in Hmem.
           by apply Hoff, elem_of_fmap_tl.
        -- apply list_elem_of_singleton in Hmem. by symmetry.
Qed.

Lemma X10_food_witness :
  (0 <= row (foodCoords grownSession) < ROWS ∧
   0 <= col (foodCoords grownSession) < COLS) ∧
  (cellOf (foodCoords grownSession)
     ∈ cellOf <$> snakeCoordinates grownSession →
   cellOf <$> last (snakeCoordinates grownSession)
     = Some (cellOf (foodCoords grownSession))).
Proof.
  apply (X10_food_in_bounds_and_at_most_under_head growDraws grownSession).
  exact grownSession_reachable.
Defined.

Lemma connected_cons a l : connected (a :: l) → connected l.
Proof. destruct l as [|b l]; [done|]. by intros [_ ?]. Qed.

Lemma connected_cells l1 l2 :
  cellOf <$> l1 = cellOf <$> l2 → connected l1 → connected l2.
Proof.
  revert l2. induction l1 as [|a l1 IH]; intros [|a' l2] Heq; try done.
  destruct l1 as [|b l1], l2 as [|b' l2]; try done.
  rewrite !fmap_cons in Heq. injection Heq as Ha1 Ha2 Hb1 Hb2 Heq.
  intros [Hadj Hconn]. split.
  - unfold adjacent in *. lia.
  - apply IH; [|done]. rewrite !fmap_cons. unfold cellOf at 1 3.
    by rewrite Hb1, Hb2, Heq.
Qed.

Lemma connected_snoc l a b :
  connected (l ++ [a]) → adjacent a b → connected (l ++ [a; b]).
Proof.
  intros Hconn Hadj. induction l as [|x l IH]; [done|].
  destruct l as [|y l].
  - simpl in *. tauto.
  - destruct Hconn as [Hxy Hconn]. split; [done|]. by apply IH.
Qed.

Lemma connected_lookup l i a b :
  connected l → l !! i = Some a → l !! S i = Some b → adjacent a b.
Proof.
  revert i. induction l as [|x l IH]; intros i Hconn Ha Hb; [done|].
  destruct i as [|i].
  - destruct l as [|y l]; [done|]. simpl in *. simplify_eq. tauto.
  - apply (IH i); [by eapply connected_cons | done | done].
Qed.

Lemma adjacent_step d h : adjacent (headCopy h) (stepHead d h).
Proof. destruct d; unfold adjacent; simpl; lia. Qed.

Lemma snakePositions_connected : connected snakePositions.
Proof. vm_compute. repeat split; reflexivity. Qed.

(** X11. While the game is not over the body of a reachable session is a
    chain: each element of the array is exactly one orthogonal step away
    from the next one. *)
Theorem X11_body_is_a_chain_of_adjacent_cells random s :
  reachable random s → gameOver s = false →
  ∀ i a b,
    snakeCoordinates s !! i = Some a →
    snakeCoordinates s !! S i = Some b →
    Z.abs (row a - row b) + Z.abs (col a - col b) = 1.
Proof.
  intros Hreach Hgo i a b Ha Hb.
  apply (connected_lookup (snakeCoordinates s) i); try done.
  clear i a b Ha Hb. revert s Hreach Hgo.
  apply (reachable_invariant random
           (λ s, gameOver s = false → connected (snakeCoordinates s))).
  - intros fuel s Hinit _. apply initEffect_Some in Hinit as (-> & _).
    apply snakePositions_connected.
  - intros fuel op p p' Hsound Hconn Hrun Hgo'.
    destruct (run_effect random fuel op p p' Hsound Hrun)
      as [(-> & _)
         |[(-> & _ & _ & _ & Hover)
          |(_ & l & h & Hbody & Hmove & Hnot)]].
    + apply snakePositions_connected.
    + apply Hconn. destruct Hover; congruence.
    + destruct (moveSnakeBody_Some random _ fuel (refs p) l h (refs p')
                  Hbody Hmove) as (Hover & _ & _ & Hrest).
      rewrite Hgo' in Hover. symmetry in Hover.
      apply orb_false_elim in Hover as [Hgo Hcol].
      destruct (Hnot Hgo) as (_ & Hshare & t & l' & ->).
      specialize (Hconn Hgo). rewrite Hbody in Hconn.
      rewrite Hcol, Hshare in Hrest. destruct Hrest as (-> & _).
      assert (connected ((t :: l') ++ [headCopy h])) as Hgrown.
      { apply (connected_cells ((t :: l') ++ [h])); [|done].
        by rewrite !fmap_app. }
      assert (connected (l' ++ [headCopy h])) as Hshifted
        by (by eapply connected_cons).
      rewrite shiftBody_cons.
      destruct (onFood (refs p) h).
      * change ([hd (stepHead (direction (refs p)) h) (t :: l')]
                  ++ (l' ++ [headCopy h])
                  ++ [stepHead (direction (refs p)) h])
          with (t :: (l' ++ [headCopy h])
                       ++ [stepHead (direction (refs p)) h]).
        rewrite <- app_assoc, app_comm_cons.
        apply connected_snoc; [done | apply adjacent_step].
      * rewrite app_nil_l, <- app_assoc.
        apply connected_snoc; [done | apply adjacent_step].
Qed.

Lemma X11_body_chain_witness :
  Z.abs (row (segment 0 9) - row (segment 1 9))
  + Z.abs (col (segment 0 9) - col (segment 1 9)) = 1.
Proof.
  apply (X11_body_is_a_chain_of_adjacent_cells centreDraws loopSession
           loopSession_reachable eq_refl 4 (segment 0 9) (segment 1 9)).
  - reflexivity.
  - reflexivity.
Defined.

(** ** Laws of the tick *)

(** X12. A tick that commits its move, on a session that is not over with
    a body of at least two cells: the new body is the old one without its
    tail cell when the pre-step head was off the food, the whole old one
    when it was on the food, followed by the candidate head. So the length
    is unchanged or grows by one, the score is unchanged or grows by 10,
    and the occupied-set is rebuilt to the keys of the new body. *)
Theorem X12_committed_tick_shifts_or_grows random fuel s t l h :
  gameOver s = false →
  snakeCoordinates s = (t :: l) ++ [h] →
  collisionCheck s (stepHead (direction s) h) = false →
  (cellOf h = cellOf (foodCoords s) → placeable random fuel s) →
  ∃ s', moveSnake random fuel s = Some s' ∧
    gameOver s' = false ∧
    cellOf <$> snakeCoordinates s'
      = (if onFood s h then cellOf <$> snakeCoordinates s
         else tl (cellOf <$> snakeCoordinates s))
        ++ [cellOf (stepHead (direction s) h)] ∧
    length (snakeCoordinates s')
      = (length (snakeCoordinates s) + (if onFood s h then 1 else 0))%nat ∧
    points s' = points s + (if onFood s h then 10 else 0) ∧
    (onFood s h = false → foodCoords s' = foodCoords s) ∧
    snakeCoordinatesMap s' = keysOf (snakeCoordinates s').
Proof.
  intros Hgo Hbody Hcol Hplace.
  destruct (moveSnake_spec random fuel s (t :: l) h Hgo Hbody)
    as (s' & Hmove & Hover & _ & Hfood & Hrest).
  { intros Hon. by apply Hplace, onFood_cell. }
  rewrite Hcol in Hover, Hrest.
  destruct Hrest as (Hnew & Hsync & _).
  exists s'. split; [exact Hmove|]. split; [exact Hover|].
  split; [by rewrite Hnew, committed_cells, Hbody|].
  split.
  { rewrite Hnew, Hbody, !length_app, length_shiftBody.
    destruct (onFood s h); simpl; lia. }
  split; [|split; [|exact Hsync]].
  - destruct (onFood s h); destruct Hfood as (-> & _); lia.
  - intros Hoff. rewrite Hoff in Hfood. by destruct Hfood as (_ & -> & _).
Qed.

Lemma X12_committed_tick_witness :
  ∃ s', moveSnake growDraws 1 onFoodSession = Some s' ∧
    gameOver s' = false ∧
    cellOf <$> snakeCoordinates s'
      = (if onFood onFoodSession (headAt 0 10)
         then cellOf <$> snakeCoordinates onFoodSession
         else tl (cellOf <$> snakeCoordinates onFoodSession))
        ++ [cellOf (stepHead (direction onFoodSession) (headAt 0 10))] ∧
    length (snakeCoordinates s')
      = (length (snakeCoordinates onFoodSession)
         + (if onFood onFoodSession (headAt 0 10) then 1 else 0))%nat ∧
    points s' = points onFoodSession
                + (if onFood onFoodSession (headAt 0 10) then 10 else 0) ∧
    (onFood onFoodSession (headAt 0 10) = false →
     foodCoords s' = foodCoords onFoodSession) ∧
    snakeCoordinatesMap s' = keysOf (snakeCoordinates s').
Proof.
  apply (X12_committed_tick_shifts_or_grows growDraws 1 onFoodSession
           (segment 0 1) (removelast (tl onFoodBody)) (headAt 0 10)).
  - reflexivity.
  - reflexivity.
  - vm_compute. reflexivity.
  - intros _. exists 0%nat. split; [lia|].
    apply (bool_decide_unpack _). vm_compute. exact I.
Defined.




(** ** Going straight *)

Lemma room_step d h : room d (stepHead d h) = room d h - 1.
Proof. destruct d; simpl; lia. Qed.

Lemma room_range d h : inBounds h → 0 <= room d h < ROWS.
Proof. unfold inBounds, room, ROWS, COLS. destruct d; lia. Qed.

Lemma ticks_over random fuel n s :
  gameOver s = true → ticks random fuel n s = Some s.
Proof.
  intros Hgo. induction n as [|n IH]; [done|].
  cbn [ticks]. by rewrite moveSnake_over.
Qed.

Lemma ticks_room random fuel n s s' h :
  wellFormed s → gameOver s = false →
  last (snakeCoordinates s) = Some h →
  ticks random fuel n s = Some s' → gameOver s' = false →
  Z.of_nat n <= room (direction s) h.
Proof.
  revert s h. induction n as [|n IH]; intros s h Hwf Hgo Hlast Hticks Hgo'.
  - apply last_Some in Hlast as (l & Hbody).
    destruct Hwf as (_ & Hin & _). rewrite Hbody in Hin.
    apply Forall_app in Hin as [_ Hin]. rewrite Forall_singleton in Hin.
    pose proof (room_range (direction s) h Hin). lia.
  - cbn [ticks] in Hticks.
    destruct (moveSnake random fuel s) as [s1|] eqn:Hmove; [|done].
    simpl in Hticks.
    apply last_Some in Hlast as (l & Hbody).
    destruct (moveSnake_Some random fuel s l h s1 Hgo Hbody Hmove)
      as (Hover & Hdir & _ & Hrest).
    destruct (collisionCheck s _).
    + rewrite ticks_over in Hticks by done. congruence.
    + destruct Hrest as (Hnew & _).
      assert (Z.of_nat n <= room (direction s1) (stepHead (direction s) h)).
      { apply (IH s1); try done.
        - by eapply wellFormed_moveSnake.
        - by rewrite Hnew, !app_assoc, last_snoc. }
      rewrite Hdir, room_step in H. lia.
Qed.

(** X14. A snake that is not turned runs into something within the width
    of the board: when [n] ticks in a row, with no key pressed, leave a
    reachable session not over, [n] is at most the number of free cells
    between the head and the wall it faces, hence at most 47. *)
Theorem X14_straight_run_is_bounded_by_the_wall random fuel n s s' :
  reachable random s →
  ticks random fuel n s = Some s' →
  gameOver s' = false →
  ∃ h, last (snakeCoordinates s) = Some h ∧
       Z.of_nat n <= room (direction s) h ∧ room (direction s) h < ROWS ∧
       room (direction s) h < COLS.
Proof.
  intros Hreach Hticks Hgo'.
  destruct (gameOver s) eqn:Hgo.
  { rewrite ticks_over in Hticks by done. congruence. }
  destruct (reachable_running random s Hreach Hgo) as (Hwf & _).
  pose proof Hwf as (Hnd & Hin & Hlen & Hset).
  destruct (body_split _ (Hlen Hgo)) as (t & l & h & Hbody).
  exists h. rewrite Hbody, app_comm_cons, last_snoc. split; [done|].
  split.
  - apply (ticks_room random fuel n s s'); try done.
    by rewrite Hbody, app_comm_cons, last_snoc.
  - rewrite Hbody, app_comm_cons in Hin.
    apply Forall_app in Hin as [_ Hin]. rewrite Forall_singleton in Hin.
    pose proof (room_range (direction s) h Hin). unfold ROWS, COLS in *. lia.
Qed.

Lemma X14_straight_run_witness :
  ∃ h, last snakePositions = Some h ∧
       Z.of_nat 38 <= room RIGHT h ∧ room RIGHT h < ROWS ∧
       room RIGHT h < COLS.
Proof.
  apply (X14_straight_run_is_bounded_by_the_wall cornerDraws 1 38
           (mkState (Some 1%positive) snakePositions RIGHT
                    (keysOf snakePositions) (foodAt 0 47) 0 false 0 2%nat)
           cornerSession).
  - apply (session_reachable _ 1 [OpStart 1]). vm_compute. reflexivity.
  - vm_compute. reflexivity.
  - reflexivity.
Defined.

(** ** Rendering *)

Lemma getCell_classes s r c :
  getCell s r c
  = classes (bool_decide (coordsKey r c = keyOf (foodCoords s)))
            (bool_decide (coordsKey r c ∈ snakeCoordinatesMap s))
            (bool_decide (match last (snakeCoordinates s) with
                          | Some head => keyOf head
                          | None => ""
                          end = coordsKey r c)).
Proof.
  unfold getCell, classes.
  by destruct (bool_decide _), (bool_decide _), (bool_decide _).
Qed.

Lemma includes_classes f b h :
  includes " food" (classes f b h) = f ∧
  includes " body" (classes f b h) = b ∧
  includes " head" (classes f b h) = h.
Proof. by destruct f, b, h. Qed.

Lemma coordsKey_nonempty r c : coordsKey r c ≠ "".
Proof. unfold coordsKey. by destruct (pretty r). Qed.

Lemma head_mark s r c :
  bool_decide (match last (snakeCoordinates s) with
               | Some head => keyOf head
               | None => ""
               end = coordsKey r c) = true
  ↔ cellOf <$> last (snakeCoordinates s) = Some (r, c).
Proof.
  rewrite bool_decide_eq_true.
  destruct (last (snakeCoordinates s)) as [head|]; simpl.
  - unfold keyOf, cellOf. split.
    + intros Heq. apply coordsKey_inj in Heq as [-> ->]. done.
    + by intros [= -> ->].
  - split; [|done]. intros Heq. symmetry in Heq.
    by apply coordsKey_nonempty in Heq.
Qed.

Lemma food_mark s r c :
  bool_decide (coordsKey r c = keyOf (foodCoords s)) = true
  ↔ (r, c) = cellOf (foodCoords s).
Proof.
  rewrite bool_decide_eq_true. unfold keyOf, cellOf. split.
  - intros Heq. apply coordsKey_inj in Heq as [-> ->]. done.
  - by intros [= -> ->].
Qed.

Lemma body_mark_synced s r c :
  synced s →
  bool_decide (coordsKey r c ∈ snakeCoordinatesMap s) = true
  ↔ (r, c) ∈ cellOf <$> snakeCoordinates s.
Proof.
  intros Hsync. rewrite bool_decide_eq_true, Hsync.
  apply (keyOf_elem_cells (mkCoordinate r c None)).
Qed.

(** X15. What [getCell] shows of a reachable session: a cell carries the
    class [food] exactly when it is the food cell, the class [head]
    exactly when it is the cell of the last element of the array, and a
    cell with [head] also carries [body]. While the game is not over it
    carries [body] exactly when it is a cell of the body. *)
Theorem X15_getCell_marks_food_head_and_body random s :
  reachable random s →
  ∀ r c,
    (includes " food" (getCell s r c) = true
     ↔ (r, c) = cellOf (foodCoords s)) ∧
    (includes " head" (getCell s r c) = true
     ↔ cellOf <$> last (snakeCoordinates s) = Some (r, c)) ∧
    (includes " head" (getCell s r c) = true →
     includes " body" (getCell s r c) = true) ∧
    (gameOver s = false →
     (includes " body" (getCell s r c) = true
      ↔ (r, c) ∈ cellOf <$> snakeCoordinates s)).
Proof.
  intros Hreach r c.
  rewrite getCell_classes.
  destruct (includes_classes
              (bool_decide (coordsKey r c = keyOf (foodCoords s)))
              (bool_decide (coordsKey r c ∈ snakeCoordinatesMap s))
              (bool_decide (match last (snakeCoordinates s) with
                            | Some head => keyOf head
                            | None => ""
                            end = coordsKey r c)))
    as (-> & -> & ->).
  split; [apply food_mark|]. split; [apply head_mark|]. split.
  - rewrite !bool_decide_eq_true.
    destruct (last (snakeCoordinates s)) as [head|] eqn:Hlast.
    + intros <-. apply (reachable_keys_in_set random s Hreach).
      apply last_Some in Hlast as (l & ->).
      rewrite keysOf_snoc. apply elem_of_union_r. by apply elem_of_singleton.
    + intros Heq. symmetry in Heq. by apply coordsKey_nonempty in Heq.
  - intros Hgo. apply body_mark_synced.
    by destruct (reachable_running random s Hreach Hgo).
Qed.

Lemma X15_getCell_marks_witness :
  (includes " food" (getCell grownSession 0 11) = true
   ↔ (0, 11) = cellOf (foodCoords grownSession)) ∧
  (includes " head" (getCell grownSession 0 11) = true
   ↔ cellOf <$> last (snakeCoordinates grownSession) = Some (0, 11)) ∧
  (includes " head" (getCell grownSession 0 11) = true →
   includes " body" (getCell grownSession 0 11) = true) ∧
  (gameOver grownSession = false →
   (includes " body" (getCell grownSession 0 11) = true
    ↔ (0, 11) ∈ cellOf <$> snakeCoordinates grownSession)).
Proof.
  apply (X15_getCell_marks_food_head_and_body growDraws grownSession).
  exact grownSession_reachable.
Defined.

Lemma board_ext s1 s2 :
  (∀ r c, getCell s1 r c = getCell s2 r c) → board s1 = board s2.
Proof.
  intros Hcell. unfold board.
  apply imap_ext. intros i row _. apply imap_ext. intros j x _. apply Hcell.
Qed.

Lemma includes_body_getCell s r c :
  includes " body" (getCell s r c)
  = bool_decide (coordsKey r c ∈ snakeCoordinatesMap s).
Proof. rewrite getCell_classes. apply includes_classes. Qed.

Lemma includes_head_getCell s r c :
  includes " head" (getCell s r c)
  = bool_decide (match last (snakeCoordinates s) with
                 | Some head => keyOf head
                 | None => ""
                 end = coordsKey r c).
Proof. rewrite getCell_classes. apply includes_classes. Qed.

Lemma includes_food_getCell s r c :
  includes " food" (getCell s r c)
  = bool_decide (coordsKey r c = keyOf (foodCoords s)).
Proof. rewrite getCell_classes. apply includes_classes. Qed.

(** X16. The board of a collision is the board of the moment before: a
    tick of a session that is not over, with a body of at least two
    cells, whose candidate head collides, leaves every cell with the same
    [body] and [head] classes, and with the same class name altogether
    when the pre-step head was off the food, although the array has lost
    its tail cell. *)
Theorem X16_collision_board_shows_previous_snake random fuel s t l h :
  gameOver s = false →
  snakeCoordinates s = (t :: l) ++ [h] →
  collisionCheck s (stepHead (direction s) h) = true →
  (cellOf h = cellOf (foodCoords s) → placeable random fuel s) →
  ∃ s', moveSnake random fuel s = Some s' ∧
    phase s' = GameOver ∧
    length (snakeCoordinates s') = (length (snakeCoordinates s) - 1)%nat ∧
    (∀ r c,
       includes " body" (getCell s' r c) = includes " body" (getCell s r c) ∧
       includes " head" (getCell s' r c) = includes " head" (getCell s r c)) ∧
    (cellOf h ≠ cellOf (foodCoords s) → board s' = board s).
Proof.
  intros Hgo Hbody Hcol Hplace.
  destruct (moveSnake_spec random fuel s (t :: l) h Hgo Hbody)
    as (s' & Hmove & Hover & _ & Hfood & Hrest).
  { intros Hon. by apply Hplace, onFood_cell. }
  rewrite Hcol in Hover, Hrest. destruct Hrest as (Hshift & Hmap & _).
  exists s'. split; [exact Hmove|]. split; [by apply phase_GameOver|].
  rewrite shiftBody_cons in Hshift.
  split.
  { rewrite Hshift, Hbody, !length_app. simpl. lia. }
  assert (∀ r c,
            bool_decide (coordsKey r c ∈ snakeCoordinatesMap s')
            = bool_decide (coordsKey r c ∈ snakeCoordinatesMap s)
            ∧ bool_decide (match last (snakeCoordinates s') with
                           | Some head => keyOf head
                           | None => ""
                           end = coordsKey r c)
              = bool_decide (match last (snakeCoordinates s) with
                             | Some head => keyOf head
                             | None => ""
                             end = coordsKey r c)) as Hmarks.
  { intros r c. rewrite Hmap, Hshift, Hbody, !last_snoc. done. }
  split.
  - intros r c. rewrite !includes_body_getCell, !includes_head_getCell.
    apply Hmarks.
  - intros Hoff. apply board_ext. intros r c. rewrite !getCell_classes.
    destruct (Hmarks r c) as [-> ->].
    assert (onFood s h = false) as Hon.
    { apply not_true_is_false. by rewrite onFood_cell. }
    rewrite Hon in Hfood. by destruct Hfood as (_ & -> & _).
Qed.

Lemma X16_collision_board_witness :
  ∃ s', moveSnake centreDraws 0 wallSession = Some s' ∧
    phase s' = GameOver ∧
    length (snakeCoordinates s')
      = (length (snakeCoordinates wallSession) - 1)%nat ∧
    (∀ r c,
       includes " body" (getCell s' r c)
         = includes " body" (getCell wallSession r c) ∧
       includes " head" (getCell s' r c)
         = includes " head" (getCell wallSession r c)) ∧
    (cellOf (headAt 0 9) ≠ cellOf (foodCoords wallSession) →
     board s' = board wallSession).
Proof.
  apply (X16_collision_board_shows_previous_snake centreDraws 0 wallSession
           (segment 0 0) (removelast (tl snakePositions)) (headAt 0 9)).
  - reflexivity.
  - reflexivity.
  - vm_compute. reflexivity.
  - intros H. vm_compute in H. discriminate.
Defined.

(** ** Counting cells on the board *)

Lemma imap_replicate {A B} (f : nat → A → B) n x :
  imap f (replicate n x) = (λ i, f i x) <$> seq 0 n.
Proof.
  rewrite <- (length_replicate n x) at 2.
  rewrite <- (imap_seq_0 (replicate n x) (λ i, f i x)).
  apply imap_ext. intros i y Hy.
  apply lookup_replicate in Hy as [-> _]. done.
Qed.

Lemma concat_rows {B} (F : Z * Z → B) (rows cols : list nat) :
  concat ((λ r, (λ c, F (Z.of_nat r, Z.of_nat c)) <$> cols) <$> rows)
  = F <$> (r ← rows; (λ c, (Z.of_nat r, Z.of_nat c)) <$> cols).
Proof.
  induction rows as [|r rows IH]; [done|].
  csimpl. rewrite fmap_app, IH. f_equal.
  by rewrite <- list_fmap_compose.
Qed.

Lemma board_cells_sized s (n m : nat) :
  concat (imap (λ rowIdx row,
                  imap (λ colIdx _,
                          getCell s (Z.of_nat rowIdx) (Z.of_nat colIdx)) row)
               (replicate n (replicate m "")))
  = (λ rc, getCell s rc.1 rc.2)
      <$> (r ← seq 0 n; (λ c, (Z.of_nat r, Z.of_nat c)) <$> seq 0 m).
Proof.
  rewrite imap_replicate.
  rewrite <- (concat_rows (λ rc, getCell s rc.1 rc.2)).
  f_equal. apply list_fmap_ext. intros i r _.
  by rewrite imap_replicate.
Qed.

Lemma board_cells s :
  concat (board s) = (λ rc, getCell s rc.1 rc.2) <$> gridCells.
Proof. apply board_cells_sized. Qed.

Lemma countClass_cells cls s :
  countClass cls s
  = length (filter (λ rc, includes cls (getCell s rc.1 rc.2) = true)
                   gridCells).
Proof.
  unfold countClass. rewrite board_cells.
  generalize gridCells. intros l.
  induction l as [|x l IH]; [done|].
  rewrite fmap_cons, !filter_cons.
  destruct (decide (includes cls (getCell s x.1 x.2) = true));
    simpl; by rewrite IH.
Qed.

Lemma NoDup_gridCells : NoDup gridCells.
Proof.
  unfold gridCells. apply NoDup_bind.
  - intros r1 r2 rc _ _ H1 H2.
    apply list_elem_of_fmap in H1 as (c1 & -> & _).
    apply list_elem_of_fmap in H2 as (c2 & [= Hr _] & _). lia.
  - intros r _. apply NoDup_fmap_2_strong; [|apply NoDup_seq].
    intros c1 c2 _ _ [= Hc]. lia.
  - apply NoDup_seq.
Qed.

(** In a list without duplicates, a property that singles out one member
    holds of one element. *)
Lemma length_filter_single {A} (P : A → Prop) `{∀ x, Decision (P x)}
    (l : list A) (x : A) :
  NoDup l → x ∈ l → (∀ y, P y ↔ y = x) → length (filter P l) = 1%nat.
Proof.
  intros Hnd Hx HP.
  assert (filter P l ≡ₚ [x]) as Hperm.
  { apply NoDup_Permutation; [by apply NoDup_filter | apply NoDup_singleton|].
    intros y. rewrite list_elem_of_filter, list_elem_of_singleton, HP.
    split; [tauto | by intros ->]. }
  by rewrite Hperm.
Qed.

(** A property that holds of exactly the members of a duplicate-free
    sublist holds of as many elements as that list has. *)
Lemma length_filter_members {A} (P : A → Prop) `{∀ x, Decision (P x)}
    (l k : list A) :
  NoDup l → NoDup k → (∀ y, y ∈ k → y ∈ l) → (∀ y, P y ↔ y ∈ k) →
  length (filter P l) = length k.
Proof.
  intros Hl Hk Hsub HP.
  assert (filter P l ≡ₚ k) as Hperm.
  { apply NoDup_Permutation; [by apply NoDup_filter | done|].
    intros y. rewrite list_elem_of_filter, HP. split; [tauto|].
    intros Hy. split; [done | by apply Hsub]. }
  by rewrite Hperm.
Qed.

(** A property that holds of no member holds of no element. *)
Lemma length_filter_none {A} (P : A → Prop) `{∀ x, Decision (P x)}
    (l : list A) :
  (∀ y, y ∈ l → ¬ P y) → length (filter P l) = 0%nat.
Proof.
  induction l as [|x l IH]; intros Hnone; [done|].
  rewrite filter_cons, decide_False by (apply Hnone; by left).
  apply IH. intros y Hy. apply Hnone. by right.
Qed.

(** X17. What the whole board shows of a session when it is rendered: one
    cell carries the class [food] when the food cell is in bounds and none
    otherwise, one cell carries the class [head] when the array has a last
    element and it is in bounds and none otherwise, and when the
    occupied-set is exact and the cells of the body are distinct and in
    bounds, the number of cells that carry the class [body] is the length
    of the body. So the first render, on the refs as they are declared,
    shows no food, no head and no body. *)
Theorem X17_board_counts (s : State) :
  countClass " food" s
  = (if bool_decide (inBounds (foodCoords s)) then 1 else 0)%nat ∧
  countClass " head" s
  = match last (snakeCoordinates s) with
    | Some head => if bool_decide (inBounds head) then 1 else 0
    | None => 0
    end%nat ∧
  (synced s → NoDup (cellOf <$> snakeCoordinates s) →
   Forall inBounds (snakeCoordinates s) →
   countClass " body" s = length (snakeCoordinates s)) ∧
  countClass " food" mount = 0%nat ∧ countClass " head" mount = 0%nat ∧
  countClass " body" mount = 0%nat.
Proof.
  assert (∀ s, countClass " food" s
               = (if bool_decide (inBounds (foodCoords s)) then 1 else 0)%nat)
    as Hfood.
  { clear s. intros s. rewrite countClass_cells. case_bool_decide as Hin.
    - apply (length_filter_single _ _ (cellOf (foodCoords s)));
        [apply NoDup_gridCells | by apply elem_of_gridCells |].
      intros [r c]. simpl. rewrite includes_food_getCell. apply food_mark.
    - apply length_filter_none. intros [r c] Hrc. simpl.
      rewrite includes_food_getCell, food_mark. intros Heq.
      apply Hin. apply elem_of_gridCells in Hrc.
      unfold cellOf in Heq. injection Heq as -> ->. exact Hrc. }
  assert (∀ s, countClass " head" s
               = match last (snakeCoordinates s) with
                 | Some head => if bool_decide (inBounds head) then 1 else 0
                 | None => 0
                 end%nat) as Hhead.
  { clear s Hfood. intros s. rewrite countClass_cells.
    destruct (last (snakeCoordinates s)) as [head|] eqn:Hlast.
    - case_bool_decide as Hin.
      + apply (length_filter_single _ _ (cellOf head));
          [apply NoDup_gridCells | by apply elem_of_gridCells |].
        intros [r c]. simpl. rewrite includes_head_getCell.
        rewrite head_mark, Hlast. simpl.
        unfold cellOf. split; [intros [= <- <-] | intros [= -> ->]]; done.
      + apply length_filter_none. intros [r c] Hrc. simpl.
        rewrite includes_head_getCell, head_mark, Hlast. simpl.
        intros [= Hr Hc]. apply Hin. apply elem_of_gridCells in Hrc.
        unfold inBounds. by rewrite Hr, Hc.
    - apply length_filter_none. intros [r c] _. simpl.
      rewrite includes_head_getCell, head_mark, Hlast. discriminate. }
  assert (∀ s, synced s → NoDup (cellOf <$> snakeCoordinates s) →
               Forall inBounds (snakeCoordinates s) →
               countClass " body" s = length (snakeCoordinates s)) as Hbody.
  { clear s Hfood Hhead. intros s Hsync Hnd Hin. rewrite countClass_cells.
    rewrite <- (length_fmap cellOf).
    apply length_filter_members.
    - apply NoDup_gridCells.
    - exact Hnd.
    - intros [r c] Hrc.
      apply list_elem_of_fmap in Hrc as (x & [= -> ->] & Hx).
      apply elem_of_gridCells. rewrite Forall_forall in Hin. by apply Hin.
    - intros [r c]. simpl. rewrite includes_body_getCell.
      by apply body_mark_synced. }
  split; [apply Hfood|]. split; [apply Hhead|]. split; [apply Hbody|].
  split; [by rewrite Hfood|]. split; [by rewrite Hhead|].
  rewrite Hbody; [done | done | constructor | constructor].
Qed.

(** ** The occupied-set *)

(** X18. [syncSnakeCoordinatesMap] rebuilds the occupied-set from the
    array alone: afterwards the key of a cell is in the set exactly when
    the cell is a cell of the body, whatever the set held before; nothing
    else changes, a second call changes nothing more, and for a body
    without duplicate cells the size of the set is the length of the
    body. *)
Theorem X18_sync_rebuilds_set_from_body (s : State) :
  (∀ r c, coordsKey r c ∈ snakeCoordinatesMap (syncSnakeCoordinatesMap s)
          ↔ (r, c) ∈ cellOf <$> snakeCoordinates s) ∧
  syncSnakeCoordinatesMap s = set_snakeCoordinatesMap
                                (keysOf (snakeCoordinates s)) s ∧
  syncSnakeCoordinatesMap (syncSnakeCoordinatesMap s)
    = syncSnakeCoordinatesMap s ∧
  (NoDup (cellOf <$> snakeCoordinates s) →
   size (snakeCoordinatesMap (syncSnakeCoordinatesMap s))
   = length (snakeCoordinates s)).
Proof.
  split; [|split; [done|split; [done|]]].
  - intros r c. fields.
    apply (keyOf_elem_cells (mkCoordinate r c None)).
  - intros Hnd. fields. unfold keysOf.
    rewrite size_list_to_set by (by apply NoDup_keys_cells).
    apply length_fmap.
Qed.

(** ** Intervals *)

Lemma moveSnakeBody_timer random sameObject fuel s s' :
  moveSnakeBody random sameObject fuel s = Some s' →
  timer s' = timer s ∨ timer s' = None.
Proof.
  intros Hmove.
  destruct (snakeCoordinates s) as [|h l _] eqn:Hbody using rev_ind.
  - rewrite moveSnakeBody_empty in Hmove by done. injection Hmove as <-.
    by left.
  - destruct (moveSnakeBody_Some random sameObject fuel s l h s' Hbody Hmove)
      as (_ & _ & _ & Hrest).
    destruct (collisionCheck s _); [right | left]; tauto.
Qed.

Lemma handleDirectionChange_timer key s :
  timer (handleDirectionChange key s) = timer s.
Proof. unfold handleDirectionChange. by destruct (_ || _). Qed.

(** X19. An interval whose handle is not the one in [timer] is never
    cleared: whatever event the page handles next, the interval stays live
    and its handle does not come back into [timer]. [startGame] overwrites
    the handle in [timer] without clearing the interval it names, so after
    two clicks on START the first interval fires for good, through game
    over and PLAY AGAIN. *)
Theorem X19_overwritten_interval_is_never_cleared
    random fuel event b b' (interval : positive) :
  handle random fuel event b = Some b' →
  interval ∈ live b →
  timer (refs (page b)) ≠ Some interval →
  interval ∈ live b' ∧ timer (refs (page b')) ≠ Some interval.
Proof.
  unfold handle. intros Hev Hlive Htimer.
  assert (∀ s', timer s' = timer (refs (page b)) ∨ timer s' = None →
                interval ∈ clearedBy (refs (page b)) s' (live b)
                ∧ timer s' ≠ Some interval) as Hcleared.
  { intros s' Hs'. unfold clearedBy.
    destruct (timer (refs (page b))) as [h0|] eqn:Hold;
      destruct Hs' as [->| ->]; (split; [|done]); try done.
    apply elem_of_difference. split; [done|].
    rewrite elem_of_singleton. congruence. }
  destruct event as [h| |key|h].
  - destruct (gameOver (refs (page b))) eqn:Hgo; [discriminate|].
    case_bool_decide.
    + case_bool_decide as Hfresh; [discriminate|].
      simpl in Hev. unfold startGame in Hev. rewrite Hgo in Hev.
      simpl in Hev. injection Hev as <-. cbn [live page refs]. fields.
      split; [by apply elem_of_union_r|]. intros [= ->]. done.
    + simpl in Hev. injection Hev as <-. cbn [live page refs].
      apply Hcleared. by right.
  - destruct (gameOver (refs (page b))); [|discriminate].
    simpl in Hev.
    destruct (resetGame random fuel (refs (page b))) as [s'|] eqn:Hreset;
      [|discriminate].
    simpl in Hev. injection Hev as <-. cbn [live page refs].
    apply resetGame_Some in Hreset as (_ & _ & _ & _ & _ & -> & _). done.
  - simpl in Hev. injection Hev as <-. cbn [live page refs].
    by rewrite handleDirectionChange_timer.
  - case_bool_decide; [|discriminate].
    simpl in Hev. unfold intervalTick in Hev.
    destruct (moveSnakeBody random _ fuel (refs (page b))) as [s'|] eqn:Hmove;
      [|discriminate].
    simpl in Hev. injection Hev as <-. cbn [live page refs].
    apply Hcleared. by eapply moveSnakeBody_timer.
Qed.

Lemma X19_overwritten_interval_witness :
  1%positive ∈ live (mkBrowser (mkPage wallOver false) {[1%positive]}) ∧
  timer (refs (page (mkBrowser (mkPage wallOver false) {[1%positive]})))
  ≠ Some 1%positive.
Proof.
  apply (X19_overwritten_interval_is_never_cleared centreDraws 1 (Fire 1)
           (mkBrowser (mkPage (set_timer (Some 2%positive) wallSession) false)
                      ({[1%positive]} ∪ {[2%positive]}))
           (mkBrowser (mkPage wallOver false) {[1%positive]})
           1%positive).
  - vm_compute. reflexivity.
  - apply elem_of_union_l. by apply elem_of_singleton.
  - discriminate.
Defined.
